(** * Runtime overload resolution ([overload.py])

    A shallow embedding of [OverloadFunction]: the signature extractor
    [get_function_signature], the registration entry points [__init__] and
    [overload], and the call-time resolution [__call__].

    Python objects that the code mutates (the lists [func_list],
    [signatures] and the local [matched_funcs]) live in a store and are
    referred to by location; raising an exception leaves the store as it
    was at the raise.  The host primitives the code calls
    ([inspect.Signature.bind], [BoundArguments.apply_defaults],
    [typing.get_type_hints]) are embedded from CPython 3.11; the typeguard
    predicate [check_type] is an interface. *)

From stdpp Require Import gmap strings list.
From Stdlib Require Import ZArith.

Open Scope string_scope.
Open Scope list_scope.

(** ** Values, exceptions and results *)

#[local] Set Warnings "-register-all".

Inductive Value : Type :=
| VNone
| VBool (b : bool)
| VInt (z : Z)
| VStr (s : string)
| VList (l : list Value)
| VTuple (l : list Value)
| VDict (d : gmap string Value).

(** Positional arguments are a tuple, keyword arguments a dict keyed by
    name. *)
Abbreviation Args := (list Value).
Abbreviation Kwargs := (gmap string Value).

(** Exception classes: the built-in ones the code meets, typeguard's
    [TypeCheckError], and user classes with single inheritance. *)
Inductive exn_class : Type :=
| Exception
| TypeError
| ValueError
| NameError
| IndexError
| TypeCheckError
| Subclass (name : string) (base : exn_class).

#[global] Instance exn_class_eq_dec : EqDecision exn_class.
Proof. solve_decision. Defined.

Fixpoint issubclass (c d : exn_class) : bool :=
  bool_decide (c = d)
  || match c with
     | Exception => false
     | Subclass _ base => issubclass base d
     | _ => bool_decide (d = Exception)
     end.

(** What an exception carries.  The two resolution errors are f-strings
    over [args] and [kwargs]; the payload keeps both. *)
Inductive message : Type :=
| Text (s : string)
| NoMatchingFunction (args : Args) (kwargs : Kwargs)
| MultipleFunctionsMatched (args : Args) (kwargs : Kwargs).

Record exn : Type := Exn { exn_type : exn_class; exn_msg : message }.

Definition isinstance (e : exn) (c : exn_class) : bool :=
  issubclass (exn_type e) c.

Inductive result (A : Type) : Type :=
| Return (a : A)
| Raise (e : exn).
Arguments Return {A} a.
Arguments Raise {A} e.

#[global] Instance result_ret : MRet result := @Return.
#[global] Instance result_bind : MBind result := fun A B f r =>
  match r with
  | Return a => f a
  | Raise e => Raise e
  end.

(** ** Declared types *)

(** [Any] is [typing.Any], the unconstrained type. *)
Inductive ty : Type :=
| Any
| TInt
| TStr
| TBool
| TNoneType
| TObject
| TList (elem : ty)
| TUnion (a b : ty)
| TClass (name : string).

(** [expected_type is not Any] is an identity test against [typing.Any]. *)
Definition is_Any (t : ty) : bool :=
  match t with Any => true | _ => false end.

(** An annotation as written on the function: an evaluated type, or a
    string naming one (a forward reference). *)
Inductive annotation_expr : Type :=
| Evaluated (t : ty)
| ForwardRef (name : string).

(** ** Callables as [inspect] sees them *)

Inductive param_kind : Type :=
| POSITIONAL_ONLY
| POSITIONAL_OR_KEYWORD
| VAR_POSITIONAL
| KEYWORD_ONLY
| VAR_KEYWORD.

#[global] Instance param_kind_eq_dec : EqDecision param_kind.
Proof. solve_decision. Defined.

(** [inspect.Parameter]; [None] stands for [inspect.Parameter.empty]. *)
Record Param : Type := {
  name : string;
  kind : param_kind;
  default : option Value;
  annotation : option annotation_expr
}.

(** [param.kind in (VAR_POSITIONAL, VAR_KEYWORD)] *)
Definition variadic (param : Param) : bool :=
  bool_decide (kind param = VAR_POSITIONAL)
  || bool_decide (kind param = VAR_KEYWORD).

(** The message texts of [inspect.Signature._bind]. *)
Definition quoted (s : string) : string := "'" +:+ s +:+ "'".

Definition positional_only_as_keyword (p : Param) : exn :=
  Exn TypeError
    (Text (quoted (name p) +:+ " parameter is positional only, but was passed as a keyword")).
Definition missing_argument (p : Param) : exn :=
  Exn TypeError (Text ("missing a required argument: " +:+ quoted (name p))).
Definition too_many_positional : exn :=
  Exn TypeError (Text "too many positional arguments").
Definition multiple_values (p : Param) : exn :=
  Exn TypeError (Text ("multiple values for argument " +:+ quoted (name p))).
Definition unexpected_keyword : exn :=
  Exn TypeError (Text "got an unexpected keyword argument").

(** First loop of [_bind]: positional arguments against the parameters in
    declaration order.  Returns the arguments bound so far and the
    parameters still to be processed ([parameters_ex] chained with the
    rest of the iterator). *)
Fixpoint bind_positional (parameters : list Param) (args : Args)
    (kwargs : Kwargs) (arguments : gmap string Value) {struct args}
    : result (gmap string Value * list Param) :=
  match args with
  | [] =>
      match parameters with
      | [] => Return (arguments, [])
      | param :: parameters' =>
          if bool_decide (kind param = VAR_POSITIONAL) then
            Return (arguments, parameters')
          else if bool_decide (is_Some (kwargs !! name param)) then
            if bool_decide (kind param = POSITIONAL_ONLY) then
              Raise (positional_only_as_keyword param)
            else Return (arguments, param :: parameters')
          else if bool_decide (kind param = VAR_KEYWORD)
                  || bool_decide (is_Some (default param)) then
            Return (arguments, param :: parameters')
          else Raise (missing_argument param)
      end
  | arg_val :: args' =>
      match parameters with
      | [] => Raise too_many_positional
      | param :: parameters' =>
          if bool_decide (kind param = VAR_KEYWORD)
             || bool_decide (kind param = KEYWORD_ONLY) then
            Raise too_many_positional
          else if bool_decide (kind param = VAR_POSITIONAL) then
            Return (<[name param := VTuple (arg_val :: args')]> arguments,
                    parameters')
          else if bool_decide (is_Some (kwargs !! name param))
                  && negb (bool_decide (kind param = POSITIONAL_ONLY)) then
            Raise (multiple_values param)
          else
            bind_positional parameters' args' kwargs
              (<[name param := arg_val]> arguments)
      end
  end.

(** Second loop of [_bind]: the remaining parameters take their values
    from [kwargs], which is consumed by [pop]. *)
Fixpoint bind_keywords (parameters : list Param) (kwargs : Kwargs)
    (arguments : gmap string Value) (kwargs_param : option Param)
    : result (gmap string Value * Kwargs * option Param) :=
  match parameters with
  | [] => Return (arguments, kwargs, kwargs_param)
  | param :: parameters' =>
      if bool_decide (kind param = VAR_KEYWORD) then
        bind_keywords parameters' kwargs arguments (Some param)
      else if bool_decide (kind param = VAR_POSITIONAL) then
        bind_keywords parameters' kwargs arguments kwargs_param
      else
        match kwargs !! name param with
        | None =>
            if bool_decide (is_Some (default param)) then
              bind_keywords parameters' kwargs arguments kwargs_param
            else Raise (missing_argument param)
        | Some arg_val =>
            if bool_decide (kind param = POSITIONAL_ONLY) then
              Raise (positional_only_as_keyword param)
            else
              bind_keywords parameters' (delete (name param) kwargs)
                (<[name param := arg_val]> arguments) kwargs_param
        end
  end.

(** [inspect.Signature.bind]: the [arguments] of the [BoundArguments]. *)
Definition bind (parameters : list Param) (args : Args) (kwargs : Kwargs)
    : result (gmap string Value) :=
  '(arguments, rest) ← bind_positional parameters args kwargs ∅;
  '(arguments, kwargs', kwargs_param) ← bind_keywords rest kwargs arguments None;
  if bool_decide (size kwargs' = 0) then Return arguments
  else match kwargs_param with
       | Some p => Return (<[name p := VDict kwargs']> arguments)
       | None => Raise unexpected_keyword
       end.

(** [BoundArguments.apply_defaults]: [new_arguments] is built in parameter
    order, then turned into a dict (a later pair overrides an earlier
    one). *)
Fixpoint new_arguments (parameters : list Param)
    (arguments : gmap string Value) : list (string * Value) :=
  match parameters with
  | [] => []
  | param :: parameters' =>
      match arguments !! name param with
      | Some v => (name param, v) :: new_arguments parameters' arguments
      | None =>
          match default param with
          | Some val => (name param, val) :: new_arguments parameters' arguments
          | None =>
              if bool_decide (kind param = VAR_POSITIONAL) then
                (name param, VTuple []) :: new_arguments parameters' arguments
              else if bool_decide (kind param = VAR_KEYWORD) then
                (name param, VDict ∅) :: new_arguments parameters' arguments
              else new_arguments parameters' arguments
          end
      end
  end.

Definition dict (pairs : list (string * Value)) : gmap string Value :=
  fold_left (fun d kv => <[kv.1 := kv.2]> d) pairs ∅.

Definition apply_defaults (parameters : list Param)
    (arguments : gmap string Value) : gmap string Value :=
  dict (new_arguments parameters arguments).

(** The ways a call fails to bind that the specification names (too many
    positional arguments, a keyword no parameter has, a required parameter
    left without a value), and any other [TypeError] of [bind]. *)
Inductive binding_failure (parameters : list Param) (args : Args)
    (kwargs : Kwargs) : Prop :=
| arity_mismatch :
    Forall (fun p => variadic p = false) parameters →
    (length parameters < length args)%nat →
    binding_failure parameters args kwargs
| unknown_keyword k :
    Forall (fun p => variadic p = false) parameters →
    is_Some (kwargs !! k) → k ∉ name <$> parameters →
    binding_failure parameters args kwargs
| missing_required (i : nat) p :
    parameters !! i = Some p → variadic p = false → default p = None →
    (length args ≤ i)%nat → kwargs !! name p = None →
    binding_failure parameters args kwargs
| bind_raises e :
    bind parameters args kwargs = Raise e →
    binding_failure parameters args kwargs.

(** [d.get(key, fallback)] *)
Definition dict_get {V : Type} (d : gmap string V) (key : string) (fallback : V)
    : V :=
  match d !! key with
  | Some v => v
  | None => fallback
  end.

(** ** The typeguard predicate *)

(** [typeguard.check_type value expected_type] returns when the value
    conforms and raises otherwise: [TypeCheckError] on a mismatch, and
    whatever else the check itself runs into. *)
Class TypeGuard : Type := check_type : Value -> ty -> result unit.

Definition _check_argument_type {guard : TypeGuard} (value : Value)
    (expected_type : ty) : result bool :=
  match check_type value expected_type with
  | Return _ => Return true
  | Raise e => if isinstance e TypeCheckError then Return false else Raise e
  end.

(** ** Function objects and the signature extractor *)

Section Model.

(** What a callable does when it runs, apart from the registry: it reads
    and writes a [World] of its own. *)
Variable World : Type.

Record Func : Type := {
  __name__ : string;
  (** [inspect.signature(func).parameters], in declaration order *)
  func_parameters : list Param;
  (** [func.__annotations__.get('return')] *)
  func_return : option annotation_expr;
  (** the names a forward reference is evaluated against *)
  __globals__ : gmap string ty;
  (** calling the function on positional and keyword arguments *)
  func_call : Args -> Kwargs -> World -> result Value * World
}.

Definition name_not_defined (n : string) : exn :=
  Exn NameError (Text ("name " +:+ quoted n +:+ " is not defined")).

(** Evaluating one annotation.  The strings covered are names: a name
    that is not defined raises [NameError].  Strings that are not
    expressions, and callables [inspect] or [typing] refuse as a whole, are
    outside this embedding. *)
Definition eval_annotation (globals : gmap string ty) (a : annotation_expr)
    : result ty :=
  match a with
  | Evaluated t => Return t
  | ForwardRef n =>
      match globals !! n with
      | Some t => Return t
      | None => Raise (name_not_defined n)
      end
  end.

(** [typing.get_type_hints]: every entry of [__annotations__] (the
    annotated parameters in order, then ['return']) is evaluated; the first
    name that cannot be resolved raises [NameError]. *)
Fixpoint hints_of_parameters (globals : gmap string ty)
    (parameters : list Param) (hints : gmap string ty)
    : result (gmap string ty) :=
  match parameters with
  | [] => Return hints
  | param :: parameters' =>
      match annotation param with
      | None => hints_of_parameters globals parameters' hints
      | Some a =>
          t ← eval_annotation globals a;
          hints_of_parameters globals parameters' (<[name param := t]> hints)
      end
  end.

Definition get_type_hints (func : Func) : result (gmap string ty) :=
  hints ← hints_of_parameters (__globals__ func) (func_parameters func) ∅;
  match func_return func with
  | None => Return hints
  | Some a =>
      t ← eval_annotation (__globals__ func) a;
      Return (<["return" := t]> hints)
  end.

(** The dict built for one parameter. *)
Record param_info : Type := {
  info_name : string;
  info_kind : param_kind;
  info_default : option Value;
  info_required : bool;
  info_annotation : ty
}.

(** The dict [get_function_signature] returns. *)
Record signature_info : Type := {
  sig_name : string;
  sig_return_annotation : ty;
  sig_parameters : list param_info
}.

Definition get_function_signature (func : Func) : result signature_info :=
  let signature := func_parameters func in
  type_hints ← get_type_hints func;
  let parameters :=
    map (fun param =>
           {| info_name := name param;
              info_kind := kind param;
              info_default := default param;
              info_required := negb (bool_decide (is_Some (default param)));
              info_annotation := dict_get type_hints (name param) Any |})
        signature in
  Return {| sig_name := __name__ func;
            sig_return_annotation := dict_get type_hints "return" Any;
            sig_parameters := parameters |}.

(** ** The store and the monad of statements *)

Abbreviation loc := nat.

(** The handle object: its two attributes hold references to lists. *)
Record OverloadFunction : Type := {
  func_list : loc;
  signatures : loc
}.

(** Lists of callables and lists of signature dicts, by location, and the
    callables' own world. *)
Record Store : Type := {
  func_lists : gmap loc (list Func);
  sig_lists : gmap loc (list signature_info);
  world : World
}.

Definition Py (A : Type) : Type := Store -> result A * Store.

#[global] Instance Py_ret : MRet Py := fun A a σ => (Return a, σ).
#[global] Instance Py_bind : MBind Py := fun A B f m σ =>
  match m σ with
  | (Return a, σ') => f a σ'
  | (Raise e, σ') => (Raise e, σ')
  end.

Definition raise {A : Type} (e : exn) : Py A := fun σ => (Raise e, σ).

(** A computation that touches no object. *)
Definition pure {A : Type} (r : result A) : Py A := fun σ => (r, σ).

(** [try: body  except cls: handler]; an exception of another class
    propagates. *)
Definition try_except {A : Type} (body : Py A) (cls : exn_class)
    (handler : Py A) : Py A := fun σ =>
  match body σ with
  | (Return a, σ') => (Return a, σ')
  | (Raise e, σ') => if isinstance e cls then handler σ' else (Raise e, σ')
  end.

Definition set_func_lists (σ : Store) (lists : gmap loc (list Func)) : Store :=
  {| func_lists := lists; sig_lists := sig_lists σ; world := world σ |}.
Definition set_sig_lists (σ : Store) (lists : gmap loc (list signature_info))
    : Store :=
  {| func_lists := func_lists σ; sig_lists := lists; world := world σ |}.
Definition set_world (σ : Store) (w : World) : Store :=
  {| func_lists := func_lists σ; sig_lists := sig_lists σ; world := w |}.

(** A list display allocates a new list object. *)
Definition new_func_list (l : list Func) : Py loc := fun σ =>
  let r := fresh (dom (func_lists σ)) in
  (Return r, set_func_lists σ (<[r := l]> (func_lists σ))).

Definition new_sig_list (l : list signature_info) : Py loc := fun σ =>
  let r := fresh (dom (sig_lists σ)) in
  (Return r, set_sig_lists σ (<[r := l]> (sig_lists σ))).

Definition read_func_list (r : loc) : Py (list Func) := fun σ =>
  (Return (func_lists σ !!! r), σ).

Definition read_sig_list (r : loc) : Py (list signature_info) := fun σ =>
  (Return (sig_lists σ !!! r), σ).

(** [list.append] updates the list object in place. *)
Definition append_func (r : loc) (func : Func) : Py unit := fun σ =>
  (Return tt,
   set_func_lists σ (alter (fun l => l ++ [func]) r (func_lists σ))).

Definition append_sig (r : loc) (sig : signature_info) : Py unit := fun σ =>
  (Return tt,
   set_sig_lists σ (alter (fun l => l ++ [sig]) r (sig_lists σ))).

(** Calling a function object runs it on the callables' world. *)
Definition call_func (func : Func) (args : Args) (kwargs : Kwargs)
    : Py Value := fun σ =>
  let '(r, w) := func_call func args kwargs (world σ) in
  (r, set_world σ w).

(** ** Registration *)

Definition cannot_decorate : exn :=
  Exn ValueError
    (Text "OverloadFunction cannot decorate functions with *args or **kwargs parameters").

(** The loop over [sig.parameters.values()] that opens both [__init__]
    and [overload]. *)
Fixpoint check_var_parameters (parameters : list Param) : result unit :=
  match parameters with
  | [] => Return tt
  | param :: parameters' =>
      if variadic param then Raise cannot_decorate
      else check_var_parameters parameters'
  end.

Definition __init__ (func : Func) : Py OverloadFunction :=
  pure (check_var_parameters (func_parameters func));;
  fl ← new_func_list [func];
  sig ← pure (get_function_signature func);
  sl ← new_sig_list [sig];
  mret {| func_list := fl; signatures := sl |}.

Definition overload (self : OverloadFunction) (func : Func)
    : Py OverloadFunction :=
  pure (check_var_parameters (func_parameters func));;
  append_func (func_list self) func;;
  sig ← pure (get_function_signature func);
  append_sig (signatures self) sig;;
  mret self.

(** [overload_decorator] is the constructor under another name. *)
Definition overload_decorator (func : Func) : Py OverloadFunction :=
  __init__ func.

(** ** Resolution *)

Context {guard : TypeGuard}.

(** The loop over [signature['parameters']]: [Return false] is the
    [break] with [type_matched = False]. *)
Fixpoint check_parameters (parameters : list param_info)
    (arguments : gmap string Value) : result bool :=
  match parameters with
  | [] => Return true
  | param :: parameters' =>
      match arguments !! info_name param with
      | Some arg_value =>
          let expected_type := info_annotation param in
          if is_Any expected_type then check_parameters parameters' arguments
          else
            ok ← _check_argument_type arg_value expected_type;
            if ok : bool then check_parameters parameters' arguments
            else Return false
      | None => check_parameters parameters' arguments
      end
  end.

(** The body of the [try] for one candidate, up to [type_matched]. *)
Definition type_matched (func : Func) (signature : signature_info)
    (args : Args) (kwargs : Kwargs) : result bool :=
  bound_args ← bind (func_parameters func) args kwargs;
  let bound_args := apply_defaults (func_parameters func) bound_args in
  check_parameters (sig_parameters signature) bound_args.

(** One iteration of the loop over the candidates. *)
Definition try_candidate (matched_funcs : loc) (func : Func)
    (signature : signature_info) (args : Args) (kwargs : Kwargs) : Py unit :=
  try_except
    (matched ← pure (type_matched func signature args kwargs);
     if matched : bool then append_func matched_funcs func else mret tt)
    TypeError
    (mret tt).

Fixpoint for_candidates (matched_funcs : loc)
    (candidates : list (Func * signature_info)) (args : Args)
    (kwargs : Kwargs) : Py unit :=
  match candidates with
  | [] => mret tt
  | (func, signature) :: candidates' =>
      try_candidate matched_funcs func signature args kwargs;;
      for_candidates matched_funcs candidates' args kwargs
  end.

Definition no_matching_function (args : Args) (kwargs : Kwargs) : exn :=
  Exn TypeError (NoMatchingFunction args kwargs).
Definition multiple_functions_matched (args : Args) (kwargs : Kwargs) : exn :=
  Exn TypeError (MultipleFunctionsMatched args kwargs).

(** [matched_funcs[0]]; the index is in range where the code uses it. *)
Definition first_matched (matched : list Func) : Py Func :=
  match matched with
  | func :: _ => mret func
  | [] => raise (Exn IndexError (Text "list index out of range"))
  end.

(** [__call__] up to the choice of [matched_funcs[0]]: the loop and the two
    [raise] branches. *)
Definition resolve (self : OverloadFunction) (args : Args) (kwargs : Kwargs)
    : Py Func :=
  matched_funcs ← new_func_list [];
  funcs ← read_func_list (func_list self);
  sigs ← read_sig_list (signatures self);
  for_candidates matched_funcs (zip funcs sigs) args kwargs;;
  matched ← read_func_list matched_funcs;
  if bool_decide (length matched = 0) then
    raise (no_matching_function args kwargs)
  else if bool_decide (1 < length matched) then
    raise (multiple_functions_matched args kwargs)
  else first_matched matched.

Definition __call__ (self : OverloadFunction) (args : Args) (kwargs : Kwargs)
    : Py Value :=
  func ← resolve self args kwargs;
  call_func func args kwargs.

(** ** Notions the statements use *)

(** The pairs the loop of [__call__] iterates over. *)
Definition candidates (self : OverloadFunction) (σ : Store)
    : list (Func * signature_info) :=
  zip (func_lists σ !!! func_list self) (sig_lists σ !!! signatures self).

(** Both attributes of the handle refer to list objects of the store. *)
Definition allocated (self : OverloadFunction) (σ : Store) : Prop :=
  is_Some (func_lists σ !! func_list self)
  ∧ is_Some (sig_lists σ !! signatures self).

(** A candidate survives when it binds and every checked parameter
    passes. *)
Definition survives (args : Args) (kwargs : Kwargs)
    (c : Func * signature_info) : bool :=
  match type_matched c.1 c.2 args kwargs with
  | Return true => true
  | _ => false
  end.

Definition survivors (cands : list (Func * signature_info)) (args : Args)
    (kwargs : Kwargs) : list Func :=
  (List.filter (survives args kwargs) cands).*1.

(** The exception a candidate lets through the [except TypeError] clause,
    if any. *)
Definition escapes (args : Args) (kwargs : Kwargs)
    (c : Func * signature_info) : option exn :=
  match type_matched c.1 c.2 args kwargs with
  | Raise e => if isinstance e TypeError then None else Some e
  | Return _ => None
  end.

(** Resolution runs to its decision: no candidate's check raises past the
    handler. *)
Definition settled (cands : list (Func * signature_info)) (args : Args)
    (kwargs : Kwargs) : Prop :=
  Forall (fun c => escapes args kwargs c = None) cands.

(** The loop as a function of the candidates alone: what it appends to
    [matched_funcs] and how it ends. *)
Fixpoint scan (cands : list (Func * signature_info)) (args : Args)
    (kwargs : Kwargs) : list Func * result unit :=
  match cands with
  | [] => ([], Return tt)
  | c :: cands' =>
      match type_matched c.1 c.2 args kwargs with
      | Return true =>
          let '(l, r) := scan cands' args kwargs in (c.1 :: l, r)
      | Return false => scan cands' args kwargs
      | Raise e =>
          if isinstance e TypeError then scan cands' args kwargs
          else ([], Raise e)
      end
  end.

(** The decision of [resolve] over what the loop collected. *)
Definition decision (args : Args) (kwargs : Kwargs)
    (collected : list Func * result unit) : result Func :=
  match collected.2 with
  | Raise e => Raise e
  | Return _ =>
      match collected.1 with
      | [] => Raise (no_matching_function args kwargs)
      | [func] => Return func
      | _ => Raise (multiple_functions_matched args kwargs)
      end
  end.

(** What the caller of the handle observes: the value returned or the
    exception raised, and the callables' world afterwards. *)
Definition outcome (self : OverloadFunction) (args : Args) (kwargs : Kwargs)
    (σ : Store) : result Value * World :=
  let out := __call__ self args kwargs σ in (out.1, world out.2).

(** A callable, and a signature dict, without variadic parameter. *)
Definition plain_func (func : Func) : Prop :=
  Forall (fun p => variadic p = false) (func_parameters func).
Definition plain_sig (sig : signature_info) : Prop :=
  Forall (fun p => info_kind p ≠ VAR_POSITIONAL ∧ info_kind p ≠ VAR_KEYWORD)
    (sig_parameters sig).

(** No list of the store holds a callable or a signature with a variadic
    parameter. *)
Definition no_variadic (σ : Store) : Prop :=
  (∀ r l, func_lists σ !! r = Some l → Forall plain_func l)
  ∧ (∀ r l, sig_lists σ !! r = Some l → Forall plain_sig l).

(** One use of the interface, on any handle, whatever its outcome. *)
Inductive step : Store → Store → Prop :=
| step_init func σ r σ' :
    __init__ func σ = (r, σ') → step σ σ'
| step_overload self func σ r σ' :
    overload self func σ = (r, σ') → step σ σ'
| step_call self args kwargs σ r σ' :
    __call__ self args kwargs σ = (r, σ') → step σ σ'.

(** What Python's syntax gives every function: distinct parameter names,
    none of them the keyword [return]. *)
Definition well_formed (func : Func) : Prop :=
  NoDup (name <$> func_parameters func)
  ∧ "return" ∉ name <$> func_parameters func.

End Model.

Arguments Build_Func {World} _ _ _ _ _.
Arguments __name__ {World} _.
Arguments func_parameters {World} _.
Arguments func_return {World} _.
Arguments __globals__ {World} _.
Arguments func_call {World} _ _ _ _.
Arguments get_type_hints {World} _.
Arguments get_function_signature {World} _.
Arguments Build_Store {World} _ _ _.
Arguments func_lists {World} _.
Arguments sig_lists {World} _.
Arguments world {World} _.
Arguments raise {World A} _ _.
Arguments pure {World A} _ _.
Arguments try_except {World A} _ _ _ _.
Arguments set_func_lists {World} _ _.
Arguments set_sig_lists {World} _ _.
Arguments set_world {World} _ _.
Arguments new_func_list {World} _ _.
Arguments new_sig_list {World} _ _.
Arguments read_func_list {World} _ _.
Arguments read_sig_list {World} _ _.
Arguments append_func {World} _ _ _.
Arguments append_sig {World} _ _ _.
Arguments call_func {World} _ _ _ _.
Arguments __init__ {World} _ _.
Arguments overload {World} _ _ _.
Arguments overload_decorator {World} _ _.
Arguments type_matched {World _} _ _ _ _.
Arguments try_candidate {World _} _ _ _ _ _ _.
Arguments for_candidates {World _} _ _ _ _ _.
Arguments first_matched {World} _ _.
Arguments resolve {World _} _ _ _ _.
Arguments __call__ {World _} _ _ _ _.
Arguments outcome {World _} _ _ _ _.
Arguments candidates {World} _ _.
Arguments allocated {World} _ _.
Arguments survives {World _} _ _ _.
Arguments survivors {World _} _ _ _.
Arguments escapes {World _} _ _ _.
Arguments settled {World _} _ _ _.
Arguments scan {World _} _ _ _.
Arguments decision {World} _ _ _.
Arguments plain_func {World} _.
Arguments no_variadic {World} _.
Arguments step {World _} _ _.
Arguments well_formed {World} _.

(** ** The errors of the specification, as the code raises them *)

Definition InvalidOverloadError : exn := cannot_decorate.
Definition NoMatchError (args : Args) (kwargs : Kwargs) : exn :=
  no_matching_function args kwargs.
Definition AmbiguousMatchError (args : Args) (kwargs : Kwargs) : exn :=
  multiple_functions_matched args kwargs.

(** ** A checker for scalar annotations, and the functions of the scenarios *)

Fixpoint conforms (t : ty) (v : Value) : bool :=
  match t with
  | Any | TObject => true
  | TInt => match v with VInt _ | VBool _ => true | _ => false end
  | TStr => match v with VStr _ => true | _ => false end
  | TBool => match v with VBool _ => true | _ => false end
  | TNoneType => match v with VNone => true | _ => false end
  | TList elem => match v with VList l => forallb (conforms elem) l | _ => false end
  | TUnion a b => conforms a v || conforms b v
  | TClass _ => false
  end.

Definition scalar_guard : TypeGuard := fun value expected_type =>
  if conforms expected_type value then Return tt
  else Raise (Exn TypeCheckError (Text "value does not match the declared type")).

(** A checker whose check of a [TClass] annotation itself fails, with a
    [TypeError]; on other annotations it is [scalar_guard]. *)
Definition failing_guard (cls : exn_class) : TypeGuard :=
  fun value expected_type =>
    match expected_type with
    | TClass _ => Raise (Exn cls (Text "isinstance() arg 2 must be a type"))
    | _ => scalar_guard value expected_type
    end.

(** The world of the scenarios is the log of the functions that ran. *)
Definition def (nm : string) (parameters : list Param) (ret : Value)
    : Func (list string) :=
  {| __name__ := nm; func_parameters := parameters; func_return := None;
     __globals__ := ∅;
     func_call := fun _ _ log => (Return ret, log ++ [nm]) |}.

Definition typed (nm : string) (t : ty) : Param :=
  {| name := nm; kind := POSITIONAL_OR_KEYWORD; default := None;
     annotation := Some (Evaluated t) |}.

Definition empty_store : Store (list string) :=
  {| func_lists := ∅; sig_lists := ∅; world := [] |}.

(** [f(a: int, b: str)] and its overload [f(a: str, b: int)] *)
Definition f_int_str : Func (list string) :=
  def "f_int_str" [typed "a" TInt; typed "b" TStr] (VInt 1).
Definition f_str_int : Func (list string) :=
  def "f_str_int" [typed "a" TStr; typed "b" TInt] (VInt 2).

(** [g(x: int)] and its overload [g(x: object)] *)
Definition g_int : Func (list string) := def "g_int" [typed "x" TInt] (VInt 1).

(** [h(x: int = 0)] *)
Definition h : Func (list string) :=
  def "h" [{| name := "x"; kind := POSITIONAL_OR_KEYWORD;
              default := Some (VInt 0);
              annotation := Some (Evaluated TInt) |}] (VInt 7).

(** A function with a star parameter [rest] and one with a double-star
    parameter [options] *)
Definition v_rest : Func (list string) :=
  def "v" [{| name := "rest"; kind := VAR_POSITIONAL; default := None;
              annotation := None |}] VNone.
Definition k_options : Func (list string) :=
  def "k" [{| name := "options"; kind := VAR_KEYWORD; default := None;
              annotation := None |}] VNone.

(** [def u(x: "Missing")], where no [Missing] is defined *)
Definition u_missing : Func (list string) :=
  {| __name__ := "u";
     func_parameters :=
       [{| name := "x"; kind := POSITIONAL_OR_KEYWORD; default := None;
           annotation := Some (ForwardRef "Missing") |}];
     func_return := None; __globals__ := ∅;
     func_call := fun _ _ log => (Return VNone, log ++ ["u"]) |}.

(** Decorating one function and adding overloads in turn; the result is
    whatever the last step gives. *)
Definition register2 (f1 f2 : Func (list string))
    : Py (list string) OverloadFunction :=
  self ← __init__ f1;
  overload self f2.

(** The handle and the store a registration from the empty store leaves. *)
Definition registered (p : Py (list string) OverloadFunction)
    : OverloadFunction * Store (list string) :=
  match p empty_store with
  | (Return self, σ) => (self, σ)
  | (Raise _, σ) => ({| func_list := 0; signatures := 0 |}, σ)
  end.

Definition f_registered := registered (register2 f_int_str f_str_int).
Definition h_registered := registered (__init__ h).
Definition h_f_registered := registered (register2 h f_int_str).
Definition f_alone := registered (__init__ f_int_str).

(** The signature dict extraction gives, for a function it succeeds on. *)
Definition signature_of (func : Func (list string)) : signature_info :=
  match get_function_signature func with
  | Return sig => sig
  | Raise _ => {| sig_name := ""; sig_return_annotation := Any;
                  sig_parameters := [] |}
  end.

(** [def w(x: Weird)], for a class the checker cannot check against, and
    its registration before [g(x: int)] *)
Definition w_weird : Func (list string) :=
  def "w" [typed "x" (TClass "Weird")] (VInt 9).
Definition w_g_registered := registered (register2 w_weird g_int).
Definition g_alone := registered (__init__ g_int).

(** [def q(x, y: int)] *)
Definition q_untyped : Func (list string) :=
  def "q" [{| name := "x"; kind := POSITIONAL_OR_KEYWORD; default := None;
              annotation := None |}; typed "y" TInt] VNone.

(** ** Further notions: registration and extraction *)

(** The two lists of a handle have the same length. *)
Definition parallel {World : Type} (self : OverloadFunction)
    (σ : Store World) : Prop :=
  length (func_lists σ !!! func_list self)
  = length (sig_lists σ !!! signatures self).

(** An annotation of the function, of a parameter or of the result, is a
    forward reference to [n], and [n] is not defined. *)
Definition unresolved_name {World : Type} (func : Func World) (n : string)
    : Prop :=
  ((∃ p, p ∈ func_parameters func ∧ annotation p = Some (ForwardRef n))
   ∨ func_return func = Some (ForwardRef n))
  ∧ __globals__ func !! n = None.

(** Two parameter dicts with the same name and the same annotation. *)
Definition same_constraint (a b : param_info) : Prop :=
  info_name a = info_name b ∧ info_annotation a = info_annotation b.

(** Every parameter can be passed by position and by keyword. *)
Definition positional_or_keyword (parameters : list Param) : Prop :=
  Forall (fun p => kind p = POSITIONAL_OR_KEYWORD) parameters.

(** [_bind] from its second loop on. *)
Definition bind_rest (kwargs : Kwargs)
    (state : gmap string Value * list Param) : result (gmap string Value) :=
  '(arguments, kwargs', kwargs_param) ←
    bind_keywords state.2 kwargs state.1 None;
  if bool_decide (size kwargs' = 0) then Return arguments
  else match kwargs_param with
       | Some p => Return (<[name p := VDict kwargs']> arguments)
       | None => Raise unexpected_keyword
       end.


(** A signature dict with every parameter recorded as keyword-only. *)
Definition as_keyword_only (sig : signature_info) : signature_info :=
  {| sig_name := sig_name sig;
     sig_return_annotation := sig_return_annotation sig;
     sig_parameters :=
       map (fun p => {| info_name := info_name p; info_kind := KEYWORD_ONLY;
                        info_default := info_default p;
                        info_required := info_required p;
                        info_annotation := info_annotation p |})
         (sig_parameters sig) |}.

(** Every callable of the handle is paired with the signature extracted
    from it, and the two lists are in step. *)
Definition own_signatures {World : Type} (self : OverloadFunction)
    (σ : Store World) : Prop :=
  allocated self σ ∧ parallel self σ
  ∧ Forall (fun c => get_function_signature c.1 = Return c.2)
      (candidates self σ).

(** [def r(x)] and [def g_z(z: int)] *)
Definition r_untyped : Func (list string) :=
  def "r" [{| name := "x"; kind := POSITIONAL_OR_KEYWORD; default := None;
              annotation := None |}] (VInt 4).
Definition g_z : Func (list string) := def "g_z" [typed "z" TInt] (VInt 3).

(** Adding overloads in turn. *)
Fixpoint overload_all (self : OverloadFunction)
    (funcs : list (Func (list string))) : Py (list string) OverloadFunction :=
  match funcs with
  | [] => mret self
  | func :: funcs' => overload self func;; overload_all self funcs'
  end.

(** Decorating [first], then trying [overload] on [u] and going on after
    its [NameError], then adding [later]; and the same without [u]. *)
Definition after_failed_overload (first : Func (list string))
    (later : list (Func (list string))) : Py (list string) OverloadFunction :=
  self ← __init__ first;
  try_except (overload self u_missing) NameError (mret self);;
  overload_all self later.
Definition without_failed_overload (first : Func (list string))
    (later : list (Func (list string))) : Py (list string) OverloadFunction :=
  self ← __init__ first;
  overload_all self later.

Definition r_misaligned :=
  registered (after_failed_overload f_int_str [r_untyped; g_int]).
Definition r_aligned :=
  registered (without_failed_overload f_int_str [r_untyped; g_int]).
Definition h_misaligned :=
  registered (after_failed_overload f_int_str [h; g_z]).
Definition h_aligned :=
  registered (without_failed_overload f_int_str [h; g_z]).

(** * Binding *)

Ltac raised := eexists; reflexivity.
Ltac res_unfold := unfold mbind, mret, result_bind, result_ret in *.

Lemma variadic_false p :
  variadic p = false ↔ kind p ≠ VAR_POSITIONAL ∧ kind p ≠ VAR_KEYWORD.
Proof.
  unfold variadic. rewrite orb_false_iff, !bool_decide_eq_false. done.
Qed.

Lemma bind_positional_TypeError ps args kwargs arguments e :
  bind_positional ps args kwargs arguments = Raise e → exn_type e = TypeError.
Proof.
  revert ps arguments. induction args as [|a args IH]; intros [|p ps] arguments;
    simpl; try done.
  - repeat case_match; by intros [= <-].
  - by intros [= <-].
  - repeat case_match; try (by intros [= <-]). apply IH.
Qed.

Lemma bind_keywords_TypeError ps kwargs arguments kp e :
  bind_keywords ps kwargs arguments kp = Raise e → exn_type e = TypeError.
Proof.
  revert kwargs arguments kp. induction ps as [|p ps IH]; intros kwargs arguments kp;
    simpl; [done|].
  repeat case_match; try (by intros [= <-]); apply IH.
Qed.

Lemma bind_TypeError ps args kwargs e :
  bind ps args kwargs = Raise e → exn_type e = TypeError.
Proof.
  unfold bind. res_unfold.
  destruct (bind_positional ps args kwargs ∅) as [[a rest]|e'] eqn:Hp.
  - destruct (bind_keywords rest kwargs a None) as [[[a' k'] kp]|e'] eqn:Hk.
    + simpl. case_bool_decide; [done|]. destruct kp; [done|]. by intros [= <-].
    + intros [= <-]. by eapply bind_keywords_TypeError.
  - intros [= <-]. by eapply bind_positional_TypeError.
Qed.

Lemma bind_positional_too_many ps args kwargs arguments :
  Forall (fun p => variadic p = false) ps → length ps < length args →
  ∃ e, bind_positional ps args kwargs arguments = Raise e.
Proof.
  revert ps arguments. induction args as [|a args IH]; intros ps arguments Hps Hlen;
    simpl in *; [lia|].
  destruct ps as [|p ps]; [raised|].
  apply Forall_cons in Hps as [Hp Hps]. apply variadic_false in Hp as [Hp1 Hp2].
  destruct (bool_decide (kind p = VAR_KEYWORD) || bool_decide (kind p = KEYWORD_ONLY));
    [raised|].
  rewrite (bool_decide_eq_false_2 _ Hp1).
  destruct (bool_decide (is_Some (kwargs !! name p))
            && negb (bool_decide (kind p = POSITIONAL_ONLY))); [raised|].
  apply IH; [done|]. simpl in Hlen. lia.
Qed.

Lemma bind_positional_rest ps args kwargs arguments arguments' rest :
  bind_positional ps args kwargs arguments = Return (arguments', rest) →
  rest ⊆ ps.
Proof.
  revert ps arguments. induction args as [|a args IH]; intros [|p ps] arguments;
    simpl; try done.
  - by intros [= _ <-].
  - repeat case_match; try done; intros [= _ <-]; try done.
    all: by apply list_subseteq_cons.
  - repeat case_match; try done.
    + intros [= _ <-]. by apply list_subseteq_cons.
    + intros Hb. apply IH in Hb. by apply list_subseteq_cons.
Qed.

Lemma bind_keywords_leftover ps kwargs arguments k v :
  Forall (fun p => variadic p = false) ps → k ∉ name <$> ps →
  kwargs !! k = Some v →
  (∃ e, bind_keywords ps kwargs arguments None = Raise e)
  ∨ (∃ arguments' kwargs', bind_keywords ps kwargs arguments None
                            = Return (arguments', kwargs', None)
                            ∧ kwargs' !! k = Some v).
Proof.
  revert kwargs arguments. induction ps as [|p ps IH]; intros kwargs arguments Hps Hk Hv;
    simpl.
  - right. by eauto.
  - apply Forall_cons in Hps as [Hp Hps]. apply variadic_false in Hp as [Hp1 Hp2].
    rewrite fmap_cons, not_elem_of_cons in Hk. destruct Hk as [Hne Hk].
    rewrite !bool_decide_eq_false_2 by done.
    destruct (kwargs !! name p) as [x|] eqn:Hx.
    + case_bool_decide; [left; raised|].
      apply IH; [done..|]. by rewrite lookup_delete_ne.
    + case_bool_decide; [|left; raised]. by apply IH.
Qed.

Lemma bind_keywords_missing ps kwargs arguments kp p :
  p ∈ ps → variadic p = false → default p = None → kwargs !! name p = None →
  ∃ e, bind_keywords ps kwargs arguments kp = Raise e.
Proof.
  intros Hin Hv Hd. apply variadic_false in Hv as [Hv1 Hv2].
  revert kwargs arguments kp.
  induction ps as [|q ps IH]; intros kwargs arguments kp Hk; simpl.
  - by apply not_elem_of_nil in Hin.
  - apply elem_of_cons in Hin as [<-|Hin].
    + rewrite !bool_decide_eq_false_2 by done. rewrite Hk, Hd.
      rewrite bool_decide_eq_false_2; [raised|]. by intros [? ?].
    + specialize (IH Hin).
      repeat case_match; try (raised); try (by apply IH).
      apply IH. destruct (decide (name q = name p)) as [Heq|Hne].
      * rewrite <- Heq. apply lookup_delete_eq.
      * by rewrite lookup_delete_ne.
Qed.

Lemma bind_positional_missing ps args kwargs arguments (i : nat) p :
  ps !! i = Some p → variadic p = false → default p = None →
  (length args ≤ i)%nat → kwargs !! name p = None →
  (∃ e, bind_positional ps args kwargs arguments = Raise e)
  ∨ (∃ arguments' rest, bind_positional ps args kwargs arguments
                         = Return (arguments', rest) ∧ p ∈ rest).
Proof.
  intros Hi Hv Hd Hlen Hk. assert (Hv' := Hv). apply variadic_false in Hv' as [Hv1 Hv2].
  revert ps i arguments Hi Hlen.
  induction args as [|a args IH]; intros ps i arguments Hi Hlen; simpl.
  - destruct ps as [|q ps]; [done|].
    assert (Hin : p ∈ q :: ps) by by eapply list_elem_of_lookup_2.
    case_bool_decide as Hq.
    { right. do 2 eexists. split; [done|].
      apply elem_of_cons in Hin as [->|Hin]; done. }
    case_bool_decide.
    { case_bool_decide; [left; raised|]. right. by eauto. }
    destruct (bool_decide (kind q = VAR_KEYWORD) || bool_decide (is_Some (default q)))
      eqn:Hor.
    { right. by eauto. }
    left. raised.
  - destruct ps as [|q ps]; [done|].
    destruct i as [|i]; [simpl in Hlen; lia|]. simpl in Hi, Hlen.
    destruct (bool_decide (kind q = VAR_KEYWORD) || bool_decide (kind q = KEYWORD_ONLY));
      [left; raised|].
    case_bool_decide.
    { right. do 2 eexists. split; [done|]. by eapply list_elem_of_lookup_2. }
    destruct (bool_decide (is_Some (kwargs !! name q))
              && negb (bool_decide (kind q = POSITIONAL_ONLY)));
      [left; raised|].
    eapply IH; [done|lia].
Qed.

(** Each named way of failing to bind makes [bind] raise, and [bind] raises
    nothing but [TypeError]. *)
Lemma binding_failure_raises ps args kwargs :
  binding_failure ps args kwargs →
  ∃ e, bind ps args kwargs = Raise e ∧ isinstance e TypeError = true.
Proof.
  intros Hf.
  assert (Hr : ∃ e, bind ps args kwargs = Raise e).
  { destruct Hf as [Hps Hlen|k Hps [v Hk] Hnk|i p Hi Hv Hd Hlen Hk|e He].
    - destruct (bind_positional_too_many ps args kwargs ∅ Hps Hlen) as [e He].
      exists e. unfold bind. res_unfold. by rewrite He.
    - unfold bind. res_unfold.
      destruct (bind_positional ps args kwargs ∅) as [[a rest]|e] eqn:Hp;
        [|raised].
      apply bind_positional_rest in Hp.
      destruct (bind_keywords_leftover rest kwargs a k v) as [[e ->]|(a' & k' & -> & Hk')].
      + eapply Forall_forall. intros q Hq. rewrite Forall_forall in Hps.
        apply Hps. by apply Hp.
      + intros Hin. apply Hnk. apply list_elem_of_fmap in Hin as (q & -> & Hq).
        apply list_elem_of_fmap. exists q. split; [done|]. by apply Hp.
      + done.
      + raised.
      + rewrite bool_decide_eq_false_2; [raised|].
        intros Hsz. apply map_size_empty_inv in Hsz. by rewrite Hsz in Hk'.
    - unfold bind. res_unfold.
      destruct (bind_positional_missing ps args kwargs ∅ i p Hi Hv Hd Hlen Hk)
        as [[e ->]|(a & rest & -> & Hin)]; [raised|].
      destruct (bind_keywords_missing rest kwargs a None p Hin Hv Hd Hk) as [e ->].
      raised.
    - by exists e. }
  destruct Hr as [e He]. exists e. split; [done|].
  unfold isinstance. by rewrite (bind_TypeError _ _ _ _ He).
Qed.

Section Theorems.
Context {World : Type} {guard : TypeGuard}.
Implicit Types (σ : Store World) (func : Func World) (self : OverloadFunction).
Implicit Types (cands : list (Func World * signature_info)) (c : Func World * signature_info).

Ltac py_unfold :=
  unfold mbind, mret, Py_bind, Py_ret, result_bind, result_ret, pure, raise,
    try_except in *.

Lemma set_func_lists_id σ : set_func_lists σ (func_lists σ) = σ.
Proof. by destruct σ. Qed.

(** One iteration, by the result of the [try] body. *)
Lemma try_candidate_eq m func sig args kwargs σ :
  try_candidate m func sig args kwargs σ =
  match type_matched func sig args kwargs with
  | Return true => append_func m func σ
  | Return false => (Return tt, σ)
  | Raise e => if isinstance e TypeError then (Return tt, σ) else (Raise e, σ)
  end.
Proof.
  unfold try_candidate. py_unfold.
  destruct (type_matched func sig args kwargs) as [[|]|e]; simpl; done.
Qed.

(** The loop writes [matched_funcs] and nothing else, and what it appends
    depends on the candidates and the arguments only. *)
Lemma for_candidates_scan m cands args kwargs σ :
  for_candidates m cands args kwargs σ =
  ((scan cands args kwargs).2,
   set_func_lists σ
     (alter (fun acc => acc ++ (scan cands args kwargs).1) m (func_lists σ))).
Proof.
  revert σ. induction cands as [|[func sig] cands IH]; intros σ; simpl.
  - py_unfold. f_equal. rewrite <- (set_func_lists_id σ) at 1. f_equal.
    symmetry. apply alter_id. intros x _. apply app_nil_r.
  - unfold mbind at 1, Py_bind. rewrite try_candidate_eq.
    destruct (type_matched func sig args kwargs) as [[|]|e]; simpl.
    + rewrite IH. destruct (scan cands args kwargs) as [l r]. simpl.
      f_equal. unfold set_func_lists. simpl. f_equal.
      rewrite alter_alter_eq. apply alter_ext. intros x _. simpl.
      by rewrite <- app_assoc.
    + apply IH.
    + destruct (isinstance e TypeError); [apply IH|]. simpl.
      f_equal. rewrite <- (set_func_lists_id σ) at 1. f_equal.
      symmetry. apply alter_id. intros x _. apply app_nil_r.
Qed.

(** [resolve] allocates one list, fills it, and decides on its length. *)
Lemma resolve_eq self args kwargs σ :
  resolve self args kwargs σ =
  (decision args kwargs (scan (candidates self σ) args kwargs),
   set_func_lists σ
     (<[fresh (dom (func_lists σ)) := (scan (candidates self σ) args kwargs).1]>
        (func_lists σ))).
Proof.
  unfold resolve.
  unfold mbind at 1, Py_bind. unfold new_func_list at 1.
  set (m := fresh (dom (func_lists σ))).
  assert (Hm : func_lists σ !! m = None).
  { apply not_elem_of_dom. apply is_fresh. }
  unfold mbind at 1, Py_bind. unfold read_func_list at 1. simpl.
  unfold mbind at 1, Py_bind. unfold read_sig_list at 1. simpl.
  assert (Hc : zip (<[m:=[]]> (func_lists σ) !!! func_list self)
                   (sig_lists σ !!! signatures self) = candidates self σ).
  { unfold candidates. f_equal.
    destruct (decide (m = func_list self)) as [<-|Hne].
    - rewrite lookup_total_insert_eq. by rewrite lookup_total_alt, Hm.
    - by rewrite lookup_total_insert_ne. }
  rewrite Hc. clear Hc.
  unfold mbind at 1, Py_bind. rewrite for_candidates_scan.
  destruct (scan (candidates self σ) args kwargs) as [l r] eqn:Hs. simpl.
  assert (Ha : alter (λ acc, acc ++ l) m (<[m:=[]]> (func_lists σ))
               = <[m:=l]> (func_lists σ)).
  { by rewrite alter_insert_eq. }
  rewrite Ha. clear Ha.
  unfold decision. simpl. destruct r as [[]|e]; [|done].
  unfold mbind at 1, Py_bind. unfold read_func_list at 1. simpl.
  rewrite lookup_total_insert_eq.
  destruct l as [|f [|f' l]]; simpl; done.
Qed.

Lemma call_eq self args kwargs σ :
  __call__ self args kwargs σ =
  match (resolve self args kwargs σ).1 with
  | Return func => call_func func args kwargs (resolve self args kwargs σ).2
  | Raise e => (Raise e, (resolve self args kwargs σ).2)
  end.
Proof.
  unfold __call__. unfold mbind at 1, Py_bind.
  by destruct (resolve self args kwargs σ) as [[func|e] σ'].
Qed.

Lemma scan_settled cands args kwargs :
  settled cands args kwargs →
  scan cands args kwargs = (survivors cands args kwargs, Return tt).
Proof.
  unfold survivors.
  induction 1 as [|c cands Hc _ IH]; simpl; [done|].
  unfold escapes in Hc. unfold survives at 1.
  destruct (type_matched c.1 c.2 args kwargs) as [[|]|e]; simpl.
  - by rewrite IH.
  - done.
  - by destruct (isinstance e TypeError).
Qed.

Lemma survivors_two cands args kwargs i j ci cj :
  i < j → cands !! i = Some ci → cands !! j = Some cj →
  survives args kwargs ci = true → survives args kwargs cj = true →
  1 < length (survivors cands args kwargs).
Proof.
  intros Hij Hi Hj Hsi Hsj. unfold survivors.
  rewrite <- (take_drop_middle cands i ci Hi).
  rewrite List.filter_app. simpl. rewrite Hsi.
  assert (Hd : drop (S i) cands !! (j - S i) = Some cj).
  { rewrite lookup_drop. rewrite <- Hj. f_equal. lia. }
  rewrite <- (take_drop_middle _ _ cj Hd).
  rewrite List.filter_app. simpl. rewrite Hsj.
  rewrite !length_fmap, !length_app. simpl. rewrite !length_app. simpl. lia.
Qed.


(** C1.  When the loop runs to its decision, [__call__] goes by the number
    of candidates that survive binding and type checking: with none it
    raises [NoMatchError] carrying [args] and [kwargs]; with exactly one
    it is the call of that candidate on the original [args] and [kwargs],
    value or exception and effect alike; with two or more it raises
    [AmbiguousMatchError] carrying [args] and [kwargs].  In the two error
    cases no candidate has run. *)
Theorem call_decides_by_survivor_count self args kwargs σ :
  settled (candidates self σ) args kwargs →
  let matched := survivors (candidates self σ) args kwargs in
  let out := __call__ self args kwargs σ in
  (matched = [] →
     out.1 = Raise (NoMatchError args kwargs) ∧ world out.2 = world σ)
  ∧ (∀ func, matched = [func] →
       (out.1, world out.2) = func_call func args kwargs (world σ))
  ∧ (1 < length matched →
       out.1 = Raise (AmbiguousMatchError args kwargs) ∧ world out.2 = world σ).
Proof.
  intros Hs matched out. subst out. rewrite call_eq, resolve_eq.
  rewrite (scan_settled _ _ _ Hs). fold matched. unfold decision. simpl.
  split; [|split].
  - by intros ->.
  - intros func ->. unfold call_func. simpl.
    by destruct (func_call func args kwargs (world σ)).
  - intros Hl. by destruct matched as [|f [|f' l]]; simpl in *; try lia.
Qed.


Lemma resolve_fst self args kwargs σ :
  (resolve self args kwargs σ).1
  = decision args kwargs (scan (candidates self σ) args kwargs).
Proof. by rewrite resolve_eq. Qed.

Lemma candidates_after_resolve self args kwargs σ :
  candidates self (resolve self args kwargs σ).2 = candidates self σ.
Proof.
  rewrite resolve_eq. unfold candidates at 1. simpl.
  set (m := fresh (dom (func_lists σ))).
  assert (Hm : func_lists σ !! m = None).
  { apply not_elem_of_dom. apply is_fresh. }
  destruct (decide (m = func_list self)) as [Heq|Hne].
  - rewrite <- Heq. rewrite lookup_total_insert_eq.
    assert (Hc : candidates self σ = []).
    { unfold candidates. rewrite <- Heq. by rewrite lookup_total_alt, Hm. }
    by rewrite Hc.
  - by rewrite lookup_total_insert_ne.
Qed.

Lemma call_store self args kwargs σ :
  ∃ w, (__call__ self args kwargs σ).2
       = set_world (resolve self args kwargs σ).2 w.
Proof.
  rewrite call_eq. destruct (resolve self args kwargs σ) as [[func|e] σ']; simpl.
  - unfold call_func. destruct (func_call func args kwargs (world σ')) as [r w].
    by exists w.
  - exists (world σ'). by destruct σ'.
Qed.

Lemma candidates_set_world self σ w :
  candidates self (set_world σ w) = candidates self σ.
Proof. done. Qed.

Lemma resolve_set_world self args kwargs σ w :
  (resolve self args kwargs (set_world σ w)).1 = (resolve self args kwargs σ).1.
Proof. by rewrite !resolve_eq. Qed.

(** C8.  A second call with the same arguments, right after the first,
    resolves as the first did: the same candidate or the same exception.
    An exception of the resolution is raised by both calls; a selected
    candidate is the one both calls run. *)
Theorem repeated_call_same_outcome self args kwargs σ :
  let first := __call__ self args kwargs σ in
  let second := __call__ self args kwargs first.2 in
  (resolve self args kwargs first.2).1 = (resolve self args kwargs σ).1
  ∧ (∀ e, (resolve self args kwargs σ).1 = Raise e →
       first.1 = Raise e ∧ second.1 = Raise e)
  ∧ (∀ func, (resolve self args kwargs σ).1 = Return func →
       first.1 = (func_call func args kwargs (world σ)).1
       ∧ second.1 = (func_call func args kwargs (world first.2)).1).
Proof.
  intros first second.
  assert (Hsame : (resolve self args kwargs first.2).1
                  = (resolve self args kwargs σ).1).
  { subst first. destruct (call_store self args kwargs σ) as [w ->].
    rewrite resolve_set_world.
    rewrite (resolve_fst _ _ _ (resolve _ _ _ σ).2), (resolve_fst _ _ _ σ).
    by rewrite candidates_after_resolve. }
  split; [done|]. split.
  - intros e He. subst second. rewrite call_eq, Hsame, He.
    subst first. by rewrite call_eq, He.
  - intros func Hf. subst second. rewrite (call_eq _ _ _ first.2), Hsame, Hf.
    subst first. rewrite call_eq, Hf. unfold call_func.
    rewrite !resolve_eq. simpl.
    destruct (func_call func args kwargs (world σ)) as [r w]. simpl.
    by destruct (func_call func args kwargs w).
Qed.

(** C9.  A call leaves [func_list] and [signatures] of the handle as they
    were, whatever its outcome; so it does every list object that existed
    before the call. *)
Theorem call_leaves_registry self args kwargs σ :
  allocated self σ →
  let σ' := (__call__ self args kwargs σ).2 in
  func_lists σ' !! func_list self = func_lists σ !! func_list self
  ∧ sig_lists σ' !! signatures self = sig_lists σ !! signatures self
  ∧ (∀ r, is_Some (func_lists σ !! r) →
       func_lists σ' !! r = func_lists σ !! r)
  ∧ sig_lists σ' = sig_lists σ.
Proof.
  intros [Hf Hs] σ'. subst σ'.
  destruct (call_store self args kwargs σ) as [w ->].
  rewrite resolve_eq. simpl.
  assert (Hfr : ∀ r, is_Some (func_lists σ !! r) →
    <[fresh (dom (func_lists σ)):=(scan (candidates self σ) args kwargs).1]>
      (func_lists σ) !! r = func_lists σ !! r).
  { intros r Hr. apply lookup_insert_ne. intros <-.
    apply (is_fresh (dom (func_lists σ))). by apply elem_of_dom. }
  auto.
Qed.

(** *** Registration *)

Lemma check_var_parameters_cases (parameters : list Param) :
  (check_var_parameters parameters = Return tt
   ∧ Forall (fun p => variadic p = false) parameters)
  ∨ (check_var_parameters parameters = Raise cannot_decorate
     ∧ Exists (fun p => variadic p = true) parameters).
Proof.
  induction parameters as [|p ps IH]; simpl.
  - left. by split.
  - destruct (variadic p) eqn:Hp.
    + right. split; [done|]. by apply Exists_cons_hd.
    + destruct IH as [[-> Hall]|[-> Hex]].
      * left. split; [done|]. by constructor.
      * right. split; [done|]. by apply Exists_cons_tl.
Qed.

Lemma check_var_parameters_variadic (parameters : list Param) :
  Exists (fun p => variadic p = true) parameters →
  check_var_parameters parameters = Raise cannot_decorate.
Proof.
  intros Hex. destruct (check_var_parameters_cases parameters) as [[_ Hall]|[? _]];
    [|done].
  apply Exists_exists in Hex as (p & Hin & Hp).
  rewrite Forall_forall in Hall. specialize (Hall p Hin). congruence.
Qed.

Lemma get_function_signature_plain func sig :
  plain_func func → get_function_signature func = Return sig → plain_sig sig.
Proof.
  unfold get_function_signature, plain_func, plain_sig.
  intros Hp. py_unfold. destruct (get_type_hints func) as [hints|e]; [|done].
  intros [= <-]. simpl. rewrite Forall_fmap. eapply Forall_impl; [exact Hp|].
  intros p. unfold variadic. simpl. intros Hv.
  apply orb_false_iff in Hv as [H1 H2].
  apply bool_decide_eq_false in H1, H2. done.
Qed.

Lemma no_variadic_insert_funcs σ r (l : list (Func World)) :
  no_variadic σ → Forall plain_func l →
  no_variadic (set_func_lists σ (<[r:=l]> (func_lists σ))).
Proof.
  intros [Hf Hs] Hl. split; [|exact Hs]. simpl. intros r' l' Hr'.
  apply lookup_insert_Some in Hr' as [[_ <-]|[_ Hr']]; [done|]. by eapply Hf.
Qed.

Lemma no_variadic_append_func σ r func :
  no_variadic σ → plain_func func →
  no_variadic
    (set_func_lists σ (alter (fun l => l ++ [func]) r (func_lists σ))).
Proof.
  intros [Hf Hs] Hl. split; [|exact Hs]. simpl. intros r' l' Hr'.
  apply lookup_alter_Some in Hr' as [(_ & l & Hl' & ->)|[_ Hr']].
  - apply Forall_app. split; [by eapply Hf|]. by constructor.
  - by eapply Hf.
Qed.

Lemma no_variadic_insert_sigs σ r (l : list signature_info) :
  no_variadic σ → Forall plain_sig l →
  no_variadic (set_sig_lists σ (<[r:=l]> (sig_lists σ))).
Proof.
  intros [Hf Hs] Hl. split; [exact Hf|]. simpl. intros r' l' Hr'.
  apply lookup_insert_Some in Hr' as [[_ <-]|[_ Hr']]; [done|]. by eapply Hs.
Qed.

Lemma no_variadic_append_sig σ r sig :
  no_variadic σ → plain_sig sig →
  no_variadic (set_sig_lists σ (alter (fun l => l ++ [sig]) r (sig_lists σ))).
Proof.
  intros [Hf Hs] Hl. split; [exact Hf|]. simpl. intros r' l' Hr'.
  apply lookup_alter_Some in Hr' as [(_ & l & Hl' & ->)|[_ Hr']].
  - apply Forall_app. split; [by eapply Hs|]. by constructor.
  - by eapply Hs.
Qed.

Lemma no_variadic_init func σ :
  no_variadic σ → no_variadic (__init__ func σ).2.
Proof.
  intros Hσ. unfold __init__. py_unfold. unfold new_func_list, new_sig_list.
  destruct (check_var_parameters_cases (func_parameters func))
    as [[-> Hall]|[-> _]]; [|done]. simpl.
  assert (Hnv := no_variadic_insert_funcs σ (fresh (dom (func_lists σ))) [func]
                   Hσ ltac:(by constructor)).
  destruct (get_function_signature func) as [sig|e] eqn:Hsig; simpl; [|done].
  apply (no_variadic_insert_sigs _ _ [sig] Hnv).
  constructor; [|done]. by eapply get_function_signature_plain.
Qed.

Lemma no_variadic_overload self func σ :
  no_variadic σ → no_variadic (overload self func σ).2.
Proof.
  intros Hσ. unfold overload. py_unfold. unfold append_func, append_sig.
  destruct (check_var_parameters_cases (func_parameters func))
    as [[-> Hall]|[-> _]]; [|done]. simpl.
  assert (Hnv := no_variadic_append_func σ (func_list self) func Hσ Hall).
  destruct (get_function_signature func) as [sig|e] eqn:Hsig; simpl; [|done].
  apply (no_variadic_append_sig _ _ sig Hnv).
  by eapply get_function_signature_plain.
Qed.

Lemma scan_subseteq cands args kwargs :
  (scan cands args kwargs).1 ⊆ cands.*1.
Proof.
  induction cands as [|c cands IH]; simpl; [done|].
  destruct (type_matched c.1 c.2 args kwargs) as [[|]|e].
  - destruct (scan cands args kwargs) as [l r]. simpl in *.
    by apply list_subseteq_skip.
  - by apply list_subseteq_cons.
  - destruct (isinstance e TypeError); [by apply list_subseteq_cons|].
    apply list_subseteq_nil.
Qed.

Lemma no_variadic_call self args kwargs σ :
  no_variadic σ → no_variadic (__call__ self args kwargs σ).2.
Proof.
  intros Hσ. destruct (call_store self args kwargs σ) as [w ->].
  rewrite resolve_eq. simpl.
  apply (no_variadic_insert_funcs σ _ _ Hσ).
  apply Forall_forall. intros func Hin.
  apply scan_subseteq in Hin. unfold candidates in Hin.
  apply list_elem_of_fmap in Hin as ([f sig] & -> & Hin). simpl.
  apply elem_of_zip_l in Hin.
  rewrite lookup_total_alt in Hin.
  destruct (func_lists σ !! func_list self) as [l|] eqn:Hl; simpl in Hin.
  - destruct Hσ as [Hf _]. specialize (Hf _ _ Hl).
    rewrite Forall_forall in Hf. by apply Hf.
  - by apply not_elem_of_nil in Hin.
Qed.

(** C3.  A callable with a star or double-star parameter is refused with
    [InvalidOverloadError] by [__init__] and by [overload], which leave
    the store as it was; and however the interface is used from a store
    whose lists hold no variadic callable or signature, none ever enters
    one. *)
Theorem variadic_rejected_at_registration :
  (∀ func σ, Exists (fun p => variadic p = true) (func_parameters func) →
     __init__ func σ = (Raise InvalidOverloadError, σ))
  ∧ (∀ self func σ,
       Exists (fun p => variadic p = true) (func_parameters func) →
       overload self func σ = (Raise InvalidOverloadError, σ))
  ∧ (∀ σ σ', no_variadic σ → rtc step σ σ' → no_variadic σ').
Proof.
  split; [|split].
  - intros func σ Hex. unfold __init__. py_unfold.
    by rewrite (check_var_parameters_variadic _ Hex).
  - intros self func σ Hex. unfold overload. py_unfold.
    by rewrite (check_var_parameters_variadic _ Hex).
  - intros σ σ' Hσ Hsteps. induction Hsteps as [|σ1 σ2 σ3 Hstep _ IH]; [done|].
    apply IH. clear IH.
    destruct Hstep as [func σ1 r σ2 Ho|self func σ1 r σ2 Ho
                      |self args kwargs σ1 r σ2 Ho].
    + replace σ2 with (__init__ func σ1).2 by by rewrite Ho.
      by apply no_variadic_init.
    + replace σ2 with (overload self func σ1).2 by by rewrite Ho.
      by apply no_variadic_overload.
    + replace σ2 with (__call__ self args kwargs σ1).2 by by rewrite Ho.
      by apply no_variadic_call.
Qed.

(** *** Candidates that leave the loop silently *)

Lemma outcome_eq self args kwargs σ :
  outcome self args kwargs σ =
  match decision args kwargs (scan (candidates self σ) args kwargs) with
  | Return func => func_call func args kwargs (world σ)
  | Raise e => (Raise e, world σ)
  end.
Proof.
  unfold outcome. rewrite call_eq, resolve_eq. simpl.
  destruct (decision _ _ _) as [func|e]; [|done].
  unfold call_func. simpl. by destruct (func_call func args kwargs (world σ)).
Qed.

Lemma scan_skip pre c post args kwargs e :
  type_matched c.1 c.2 args kwargs = Raise e → isinstance e TypeError = true →
  scan (pre ++ c :: post) args kwargs = scan (pre ++ post) args kwargs.
Proof.
  intros Hc He. induction pre as [|c' pre IH]; simpl.
  - by rewrite Hc, He.
  - by rewrite IH.
Qed.

(** A candidate whose [try] body raises a [TypeError] is skipped: its
    iteration, the loop and the call go as if it were not there. *)
Lemma raised_TypeError_is_silent func sig args kwargs e :
  type_matched func sig args kwargs = Raise e → isinstance e TypeError = true →
  (∀ m σ, try_candidate m func sig args kwargs σ = (Return tt, σ))
  ∧ (∀ m pre post σ,
       for_candidates m (pre ++ (func, sig) :: post) args kwargs σ
       = for_candidates m (pre ++ post) args kwargs σ)
  ∧ (∀ self σ self' σ' (i : nat),
       candidates self σ !! i = Some (func, sig) →
       candidates self' σ' = delete i (candidates self σ) →
       world σ' = world σ →
       outcome self args kwargs σ = outcome self' args kwargs σ').
Proof.
  intros Hc He. split; [|split].
  - intros m σ. by rewrite try_candidate_eq, Hc, He.
  - intros m pre post σ. rewrite !for_candidates_scan.
    by rewrite (scan_skip pre (func, sig) post args kwargs e).
  - intros self σ self' σ' i Hi Hdel Hw. rewrite !outcome_eq, Hdel, Hw.
    rewrite <- (take_drop_middle _ _ _ Hi) at 1.
    rewrite (scan_skip _ (func, sig) _ args kwargs e) by done.
    by rewrite delete_take_drop.
Qed.

(** C5.  A candidate the arguments do not bind to (too many positional
    arguments, an unknown keyword, a required parameter without a value,
    or whatever else makes [bind] raise) ends its iteration without an
    exception and without touching the store; the loop, and the whole
    call, go as if the candidate were not registered. *)
Theorem binding_failure_eliminates_candidate func sig args kwargs :
  binding_failure (func_parameters func) args kwargs →
  (∀ m σ, try_candidate m func sig args kwargs σ = (Return tt, σ))
  ∧ (∀ m pre post σ,
       for_candidates m (pre ++ (func, sig) :: post) args kwargs σ
       = for_candidates m (pre ++ post) args kwargs σ)
  ∧ (∀ self σ self' σ' (i : nat),
       candidates self σ !! i = Some (func, sig) →
       candidates self' σ' = delete i (candidates self σ) →
       world σ' = world σ →
       outcome self args kwargs σ = outcome self' args kwargs σ').
Proof.
  intros Hf. apply binding_failure_raises in Hf as (e & Hb & He).
  apply (raised_TypeError_is_silent func sig args kwargs e); [|done].
  unfold type_matched. res_unfold. by rewrite Hb.
Qed.

Lemma check_parameters_raised (parameters : list param_info)
    (arguments : gmap string Value) e :
  check_parameters parameters arguments = Raise e →
  ∃ info value, info ∈ parameters ∧ arguments !! info_name info = Some value
                ∧ is_Any (info_annotation info) = false
                ∧ check_type value (info_annotation info) = Raise e.
Proof.
  induction parameters as [|p ps IH]; simpl; [done|]. intros Hr.
  assert (Htl : check_parameters ps arguments = Raise e →
                ∃ info value, info ∈ p :: ps
                  ∧ arguments !! info_name info = Some value
                  ∧ is_Any (info_annotation info) = false
                  ∧ check_type value (info_annotation info) = Raise e).
  { intros Hps. destruct (IH Hps) as (info & value & Hin & Hrest).
    exists info, value. split; [by apply elem_of_cons; right|done]. }
  destruct (arguments !! info_name p) as [v|] eqn:Hv; [|by apply Htl].
  destruct (is_Any (info_annotation p)) eqn:Hany; [by apply Htl|].
  unfold _check_argument_type in Hr. res_unfold.
  destruct (check_type v (info_annotation p)) as [[]|e'] eqn:Hck.
  - by apply Htl.
  - destruct (isinstance e' TypeCheckError); [done|]. injection Hr as <-.
    exists p, v. split; [by apply elem_of_cons; left|done].
Qed.

(** C10.  When binding succeeds and the check of some parameter raises an
    exception that is a [TypeError], that exception comes out of
    [check_type] itself, passes [_check_argument_type] (which turns only
    [TypeCheckError] into [False]), and is swallowed by the handler of the
    loop: the candidate is dropped and the call goes as if it were not
    registered. *)
Theorem type_error_during_check_eliminates func sig args kwargs bound e :
  bind (func_parameters func) args kwargs = Return bound →
  check_parameters (sig_parameters sig)
    (apply_defaults (func_parameters func) bound) = Raise e →
  isinstance e TypeError = true →
  (∃ info value,
      info ∈ sig_parameters sig
      ∧ apply_defaults (func_parameters func) bound !! info_name info
        = Some value
      ∧ check_type value (info_annotation info) = Raise e)
  ∧ (∀ value t e', check_type value t = Raise e' →
       _check_argument_type value t
       = if isinstance e' TypeCheckError then Return false else Raise e')
  ∧ (∀ m σ, try_candidate m func sig args kwargs σ = (Return tt, σ))
  ∧ (∀ m pre post σ,
       for_candidates m (pre ++ (func, sig) :: post) args kwargs σ
       = for_candidates m (pre ++ post) args kwargs σ)
  ∧ (∀ self σ self' σ' (i : nat),
       candidates self σ !! i = Some (func, sig) →
       candidates self' σ' = delete i (candidates self σ) →
       world σ' = world σ →
       outcome self args kwargs σ = outcome self' args kwargs σ').
Proof.
  intros Hb Hc He. split; [|split].
  - destruct (check_parameters_raised _ _ _ Hc) as (info & value & ? & ? & _ & ?).
    by exists info, value.
  - intros value t e' Hck. unfold _check_argument_type. by rewrite Hck.
  - apply (raised_TypeError_is_silent func sig args kwargs e); [|done].
    unfold type_matched. res_unfold. by rewrite Hb.
Qed.

(** *** Extraction failures *)

Lemma hints_of_parameters_unresolved globals (parameters : list Param) hints p n :
  p ∈ parameters → annotation p = Some (ForwardRef n) → globals !! n = None →
  ∃ n', hints_of_parameters globals parameters hints
        = Raise (name_not_defined n').
Proof.
  intros Hin Ha Hn. revert hints.
  induction parameters as [|q ps IH]; intros hints; simpl.
  - by apply not_elem_of_nil in Hin.
  - apply elem_of_cons in Hin as [<-|Hin].
    + rewrite Ha. simpl. rewrite Hn. by exists n.
    + destruct (annotation q) as [[t|n0]|]; simpl; res_unfold; simpl.
      * by apply IH.
      * destruct (globals !! n0); [by apply IH|by exists n0].
      * by apply IH.
Qed.

Lemma get_function_signature_unresolved func p n :
  p ∈ func_parameters func → annotation p = Some (ForwardRef n) →
  __globals__ func !! n = None →
  ∃ n', get_function_signature func = Raise (name_not_defined n').
Proof.
  intros Hin Ha Hn. unfold get_function_signature, get_type_hints. res_unfold.
  destruct (hints_of_parameters_unresolved _ _ ∅ p n Hin Ha Hn) as [n' ->].
  by exists n'.
Qed.

(** C4 (what the code does where the claim fails).  When [overload] is given
    a callable without variadic parameter one of whose annotations is a
    forward reference to an undefined name, it raises [NameError] at the
    call, but only after appending the callable to [func_list]: the
    callable list is one longer than the signature list afterwards. *)
Theorem overload_extraction_failure_keeps_callable self func σ p n funcs sigs :
  plain_func func →
  p ∈ func_parameters func → annotation p = Some (ForwardRef n) →
  __globals__ func !! n = None →
  func_lists σ !! func_list self = Some funcs →
  sig_lists σ !! signatures self = Some sigs →
  length funcs = length sigs →
  ∃ n' σ',
    overload self func σ = (Raise (name_not_defined n'), σ')
    ∧ func_lists σ' !! func_list self = Some (funcs ++ [func])
    ∧ sig_lists σ' !! signatures self = Some sigs
    ∧ length (funcs ++ [func]) ≠ length sigs.
Proof.
  intros Hplain Hin Ha Hn Hf Hs Hlen.
  destruct (get_function_signature_unresolved func p n Hin Ha Hn) as [n' Hsig].
  exists n'. eexists. unfold overload. py_unfold. unfold append_func.
  destruct (check_var_parameters_cases (func_parameters func))
    as [[-> _]|[_ Hex]].
  - rewrite Hsig. simpl. split; [done|]. split; [|split; [done|]].
    + simpl. by rewrite lookup_alter_eq, Hf.
    + rewrite length_app. simpl. lia.
  - apply Exists_exists in Hex as (q & Hq & Hv).
    unfold plain_func in Hplain. rewrite Forall_forall in Hplain.
    specialize (Hplain q Hq). congruence.
Qed.

(** *** What extraction records for a parameter *)

Lemma hints_of_parameters_other globals (parameters : list Param) hints hints' k :
  hints_of_parameters globals parameters hints = Return hints' →
  (∀ q, q ∈ parameters → is_Some (annotation q) → name q ≠ k) →
  hints' !! k = hints !! k.
Proof.
  revert hints. induction parameters as [|q ps IH]; intros hints; simpl.
  - by intros [= <-].
  - intros Hh Hk.
    assert (Hps : ∀ q', q' ∈ ps → is_Some (annotation q') → name q' ≠ k).
    { intros q' Hq'. apply Hk. by apply elem_of_cons; right. }
    destruct (annotation q) as [a|] eqn:Ha; [|by apply IH].
    res_unfold. destruct (eval_annotation globals a) as [t|e]; [|done].
    rewrite (IH _ Hh Hps). apply lookup_insert_ne.
    apply Hk; [by apply elem_of_cons; left|]. by rewrite Ha.
Qed.

Lemma NoDup_names_lookup (parameters : list Param) (i j : nat) p q :
  NoDup (name <$> parameters) →
  parameters !! i = Some p → parameters !! j = Some q → name p = name q →
  i = j.
Proof.
  intros Hnd Hi Hj Hn. eapply NoDup_lookup; [exact Hnd| |].
  - rewrite list_lookup_fmap, Hi. done.
  - rewrite list_lookup_fmap, Hj. simpl. by rewrite Hn.
Qed.

Lemma hints_of_parameters_annotated globals (parameters : list Param)
    hints hints' (i : nat) p a t :
  hints_of_parameters globals parameters hints = Return hints' →
  NoDup (name <$> parameters) →
  parameters !! i = Some p → annotation p = Some a →
  eval_annotation globals a = Return t →
  hints' !! name p = Some t.
Proof.
  revert hints i. induction parameters as [|q ps IH]; intros hints i; simpl;
    [done|].
  intros Hh Hnd Hi Ha Ht. try rewrite fmap_cons in Hnd.
  apply NoDup_cons in Hnd as [Hq Hnd].
  destruct i as [|i]; simpl in Hi.
  - injection Hi as ->. rewrite Ha in Hh. res_unfold. rewrite Ht in Hh.
    rewrite (hints_of_parameters_other _ _ _ _ (name p) Hh).
    + apply lookup_insert_eq.
    + intros q Hin _ Heq. apply Hq. rewrite <- Heq.
      apply list_elem_of_fmap. by exists q.
  - destruct (annotation q) as [a'|]; [|by eapply IH].
    res_unfold. destruct (eval_annotation globals a') as [t'|e]; [|done].
    by eapply IH.
Qed.

Lemma get_function_signature_Return func sig :
  get_function_signature func = Return sig →
  ∃ h0 hints,
    hints_of_parameters (__globals__ func) (func_parameters func) ∅ = Return h0
    ∧ (∀ k, k ≠ "return" → hints !! k = h0 !! k)
    ∧ sig_parameters sig =
      map (fun param =>
             {| info_name := name param;
                info_kind := kind param;
                info_default := default param;
                info_required := negb (bool_decide (is_Some (default param)));
                info_annotation := dict_get hints (name param) Any |})
          (func_parameters func).
Proof.
  unfold get_function_signature, get_type_hints. res_unfold.
  destruct (hints_of_parameters _ _ _) as [h0|e]; [|done].
  destruct (func_return func) as [a|].
  - destruct (eval_annotation _ a) as [t|e]; [|done]. intros [= <-].
    exists h0, (<["return":=t]> h0). split; [done|]. split; [|done].
    intros k Hk. by rewrite lookup_insert_ne.
  - intros [= <-]. by exists h0, h0.
Qed.

Lemma extracted_unannotated func sig (i : nat) param :
  well_formed func → get_function_signature func = Return sig →
  func_parameters func !! i = Some param → annotation param = None →
  ∃ info, sig_parameters sig !! i = Some info
          ∧ info_name info = name param ∧ info_annotation info = Any.
Proof.
  intros [Hnd Hret] Hsig Hi Ha.
  destruct (get_function_signature_Return _ _ Hsig) as (h0 & hints & Hh & Hk & ->).
  eexists. split; [by rewrite list_lookup_fmap, Hi|]. simpl. split; [done|].
  unfold dict_get. rewrite Hk.
  - rewrite (hints_of_parameters_other _ _ _ _ (name param) Hh); [done|].
    intros q Hq [a Hqa] Heq. apply list_elem_of_lookup in Hq as [j Hj].
    assert (j = i) as -> by by eapply NoDup_names_lookup.
    congruence.
  - intros Heq. apply Hret. rewrite <- Heq. apply list_elem_of_fmap.
    exists param. split; [done|]. by eapply list_elem_of_lookup_2.
Qed.

Lemma extracted_annotated func sig (i : nat) param a t :
  well_formed func → get_function_signature func = Return sig →
  func_parameters func !! i = Some param → annotation param = Some a →
  eval_annotation (__globals__ func) a = Return t →
  ∃ info, sig_parameters sig !! i = Some info
          ∧ info_name info = name param ∧ info_annotation info = t.
Proof.
  intros [Hnd Hret] Hsig Hi Ha Ht.
  destruct (get_function_signature_Return _ _ Hsig) as (h0 & hints & Hh & Hk & ->).
  eexists. split; [by rewrite list_lookup_fmap, Hi|]. simpl. split; [done|].
  unfold dict_get. rewrite Hk.
  - by rewrite (hints_of_parameters_annotated _ _ _ _ i param a t Hh).
  - intros Heq. apply Hret. rewrite <- Heq. apply list_elem_of_fmap.
    exists param. split; [done|]. by eapply list_elem_of_lookup_2.
Qed.

Lemma check_parameters_skip (pre post : list param_info) info
    (arguments : gmap string Value) :
  info_annotation info = Any →
  check_parameters (pre ++ info :: post) arguments
  = check_parameters (pre ++ post) arguments.
Proof.
  intros Hany. induction pre as [|p pre IH]; simpl.
  - rewrite Hany. simpl. by destruct (arguments !! info_name info).
  - by rewrite IH.
Qed.

Lemma check_parameters_rejected (parameters : list param_info)
    (arguments : gmap string Value) :
  check_parameters parameters arguments = Return false →
  ∃ (j : nat) info value e,
    parameters !! j = Some info
    ∧ is_Any (info_annotation info) = false
    ∧ arguments !! info_name info = Some value
    ∧ check_type value (info_annotation info) = Raise e
    ∧ isinstance e TypeCheckError = true.
Proof.
  induction parameters as [|p ps IH]; simpl; [done|]. intros Hr.
  assert (Htl : check_parameters ps arguments = Return false →
            ∃ (j : nat) info value e,
              (p :: ps) !! j = Some info
              ∧ is_Any (info_annotation info) = false
              ∧ arguments !! info_name info = Some value
              ∧ check_type value (info_annotation info) = Raise e
              ∧ isinstance e TypeCheckError = true).
  { intros Hps. destruct (IH Hps) as (j & info & value & e & Hj & Hrest).
    by exists (S j), info, value, e. }
  destruct (arguments !! info_name p) as [v|] eqn:Hv; [|by apply Htl].
  destruct (is_Any (info_annotation p)) eqn:Hany; [by apply Htl|].
  unfold _check_argument_type in Hr. res_unfold.
  destruct (check_type v (info_annotation p)) as [[]|e] eqn:Hck.
  - by apply Htl.
  - destruct (isinstance e TypeCheckError) eqn:He; [|done].
    by exists 0, p, v, e.
Qed.

(** X17.  For a function paired with the signature extracted from it: a
    parameter without annotation is recorded with [Any]; the type-checking
    loop gives the same answer with and without it, whatever the bound
    arguments and the checker; and when the loop rejects the candidate,
    the parameter it stopped at is another one, which has an annotation
    and whose bound value [check_type] refused with [TypeCheckError]. *)
Theorem unannotated_parameter_is_unconstrained func sig (i : nat) param :
  well_formed func →
  get_function_signature func = Return sig →
  func_parameters func !! i = Some param →
  annotation param = None →
  (∃ info, sig_parameters sig !! i = Some info
           ∧ info_name info = name param ∧ info_annotation info = Any)
  ∧ (∀ arguments,
       check_parameters (sig_parameters sig) arguments
       = check_parameters (delete i (sig_parameters sig)) arguments)
  ∧ (∀ arguments,
       check_parameters (sig_parameters sig) arguments = Return false →
       ∃ (j : nat) q info value e,
         j ≠ i ∧ func_parameters func !! j = Some q
         ∧ is_Some (annotation q)
         ∧ sig_parameters sig !! j = Some info
         ∧ info_name info = name q
         ∧ arguments !! name q = Some value
         ∧ check_type value (info_annotation info) = Raise e
         ∧ isinstance e TypeCheckError = true).
Proof.
  intros Hwf Hsig Hi Ha.
  destruct (extracted_unannotated func sig i param Hwf Hsig Hi Ha)
    as (info & Hinfo & Hname & Hany).
  split; [by exists info|]. split.
  - intros arguments.
    rewrite <- (take_drop_middle _ _ _ Hinfo) at 1.
    rewrite check_parameters_skip by done. by rewrite delete_take_drop.
  - intros arguments Hrej.
    destruct (check_parameters_rejected _ _ Hrej)
      as (j & info' & value & e & Hj & Hany' & Hv & Hck & He).
    destruct (get_function_signature_Return _ _ Hsig)
      as (h0 & hints & _ & _ & Hps).
    assert (Hj' := Hj). rewrite Hps, list_lookup_fmap in Hj'.
    destruct (func_parameters func !! j) as [q|] eqn:Hq; [|done].
    simpl in Hj'. injection Hj' as Hinfo'.
    assert (Hnq : info_name info' = name q) by by rewrite <- Hinfo'.
    assert (Hsome : is_Some (annotation q)).
    { destruct (annotation q) as [a|] eqn:Haq; [by eexists|].
      destruct (extracted_unannotated func sig j q Hwf Hsig Hq Haq)
        as (info'' & Hinfo'' & _ & Hany'').
      rewrite Hj in Hinfo''. injection Hinfo'' as <-.
      by rewrite Hany'' in Hany'. }
    exists j, q, info', value, e. split.
    { intros ->. rewrite Hi in Hq. injection Hq as <-.
      rewrite Ha in Hsome. by destruct Hsome. }
    split; [done|]. split; [done|]. split; [done|]. split; [done|].
    split; [by rewrite <- Hnq|done].
Qed.

(** *** What binding gives a parameter *)

Lemma bind_positional_plain ps args kwargs arguments arguments' rest :
  Forall (fun p => variadic p = false) ps →
  bind_positional ps args kwargs arguments = Return (arguments', rest) →
  rest = drop (length args) ps
  ∧ (∀ k, k ∉ name <$> take (length args) ps →
       arguments' !! k = arguments !! k)
  ∧ (NoDup (name <$> ps) → ∀ (j : nat) p v,
       ps !! j = Some p → args !! j = Some v → arguments' !! name p = Some v)
  ∧ (∀ (j : nat) p, ps !! j = Some p → (j < length args)%nat →
       kind p ≠ POSITIONAL_ONLY → kwargs !! name p = None).
Proof.
  revert ps arguments.
  induction args as [|a args IH]; intros [|q ps] arguments Hps; simpl.
  - intros [= <- <-]. repeat split; try done; intros; simpl in *; lia.
  - intros Hb.
    assert (arguments' = arguments ∧ rest = q :: ps) as [-> ->].
    { apply Forall_cons in Hps as [Hq _]. apply variadic_false in Hq as [Hq1 _].
      rewrite (bool_decide_eq_false_2 _ Hq1) in Hb.
      repeat case_match; try done; by injection Hb as <- <-. }
    repeat split; try done; intros; simpl in *; lia.
  - done.
  - apply Forall_cons in Hps as [Hq Hps]. apply variadic_false in Hq as [Hq1 Hq2].
    destruct (bool_decide (kind q = VAR_KEYWORD) || bool_decide (kind q = KEYWORD_ONLY));
      [done|].
    rewrite (bool_decide_eq_false_2 _ Hq1).
    destruct (bool_decide (is_Some (kwargs !! name q))
              && negb (bool_decide (kind q = POSITIONAL_ONLY))) eqn:Hmul; [done|].
    intros Hb. destruct (IH ps _ Hps Hb) as (Hrest & Hother & Hpos & Hkw).
    split; [done|]. split; [|split].
    + intros k Hk. rewrite not_elem_of_cons in Hk. destruct Hk as [Hne Hk].
      rewrite (Hother k Hk). by apply lookup_insert_ne.
    + intros Hnd j p v Hj Hv. apply NoDup_cons in Hnd as [Hq Hnd].
      destruct j as [|j]; simpl in *.
      * injection Hj as ->. injection Hv as ->.
        rewrite Hother; [apply lookup_insert_eq|].
        intros Hin. apply Hq. eapply list_elem_of_fmap.
        apply list_elem_of_fmap in Hin as (p' & -> & Hin).
        exists p'. split; [done|]. by eapply subseteq_take.
      * by eapply Hpos.
    + intros j p Hj Hlt Hk. destruct j as [|j]; simpl in *.
      * injection Hj as ->. apply andb_false_iff in Hmul as [Hm|Hm].
        -- apply bool_decide_eq_false in Hm.
           destruct (kwargs !! name p); [|done]. exfalso. by apply Hm.
        -- apply negb_false_iff, bool_decide_eq_true in Hm. done.
      * eapply Hkw; [done|lia|done].
Qed.

Lemma bind_keywords_plain ps kwargs arguments kp arguments' kwargs' kp' :
  Forall (fun p => variadic p = false) ps → NoDup (name <$> ps) →
  bind_keywords ps kwargs arguments kp = Return (arguments', kwargs', kp') →
  kp' = kp
  ∧ (∀ k, k ∈ name <$> ps →
       arguments' !! k = match kwargs !! k with
                         | Some v => Some v
                         | None => arguments !! k
                         end
       ∧ kwargs' !! k = None)
  ∧ (∀ k, k ∉ name <$> ps →
       arguments' !! k = arguments !! k ∧ kwargs' !! k = kwargs !! k).
Proof.
  revert kwargs arguments.
  induction ps as [|q ps IH]; intros kwargs arguments Hps Hnd; simpl.
  - intros [= <- <- <-]. split; [done|]. split; [|done].
    intros k Hk. by apply not_elem_of_nil in Hk.
  - apply Forall_cons in Hps as [Hq Hps]. apply variadic_false in Hq as [Hq1 Hq2].
    apply NoDup_cons in Hnd as [Hqn Hnd].
    rewrite (bool_decide_eq_false_2 _ Hq2), (bool_decide_eq_false_2 _ Hq1).
    destruct (kwargs !! name q) as [v|] eqn:Hv.
    + case_bool_decide; [done|]. intros Hb.
      destruct (IH _ _ Hps Hnd Hb) as (Hkp & Hin & Hout).
      split; [done|]. split.
      * intros k Hk. apply elem_of_cons in Hk as [->|Hk].
        -- destruct (Hout _ Hqn) as [-> ->].
           by rewrite Hv, lookup_insert_eq, lookup_delete_eq.
        -- assert (k ≠ name q) by (by intros ->).
           destruct (Hin _ Hk) as [-> ->].
           by rewrite lookup_delete_ne, lookup_insert_ne.
      * intros k Hk. rewrite not_elem_of_cons in Hk. destruct Hk as [Hne Hk].
        destruct (Hout _ Hk) as [-> ->].
        by rewrite lookup_delete_ne, lookup_insert_ne.
    + case_bool_decide; [|done]. intros Hb.
      destruct (IH _ _ Hps Hnd Hb) as (Hkp & Hin & Hout).
      split; [done|]. split.
      * intros k Hk. apply elem_of_cons in Hk as [->|Hk].
        -- destruct (Hout _ Hqn) as [-> ->]. by rewrite Hv.
        -- by apply Hin.
      * intros k Hk. rewrite not_elem_of_cons in Hk. destruct Hk as [Hne Hk].
        by apply Hout.
Qed.

(** Without variadic parameters, a successful [bind] gives the [j]-th
    parameter the [j]-th positional argument, the others their keyword
    argument if any, and no parameter is given twice. *)
Lemma bind_plain ps args kwargs bound :
  Forall (fun p => variadic p = false) ps → NoDup (name <$> ps) →
  bind ps args kwargs = Return bound →
  (∀ (j : nat) p v, ps !! j = Some p → args !! j = Some v →
     bound !! name p = Some v)
  ∧ (∀ (j : nat) p, ps !! j = Some p → (length args ≤ j)%nat →
       bound !! name p = kwargs !! name p)
  ∧ (∀ (j : nat) p, ps !! j = Some p → (j < length args)%nat →
       kwargs !! name p = None).
Proof.
  intros Hps Hnd. unfold bind. res_unfold.
  destruct (bind_positional ps args kwargs ∅) as [[a1 rest]|e] eqn:Hp; [|done].
  destruct (bind_positional_plain _ _ _ _ _ _ Hps Hp) as (-> & Hother & Hpos & Hkw).
  set (n := length args) in *.
  assert (Hps' : Forall (fun p => variadic p = false) (drop n ps)).
  { by apply Forall_drop. }
  assert (Hnd' : NoDup (name <$> drop n ps)).
  { rewrite fmap_drop. eapply sublist_NoDup; [exact Hnd|apply sublist_drop]. }
  assert (Hsplit : ∀ (j : nat) p, ps !! j = Some p →
            ((j < n)%nat → (name p ∈ name <$> take n ps)
                           ∧ (name p ∉ name <$> drop n ps))
            ∧ ((n ≤ j)%nat → (name p ∉ name <$> take n ps)
                             ∧ (name p ∈ name <$> drop n ps))).
  { intros j p Hj.
    assert (Hd : ∀ (j' : nat) p', ps !! j' = Some p' → name p' = name p → j' = j).
    { intros j' p' Hj' Heq. by apply (NoDup_names_lookup ps j' j p' p). }
    split; intros Hlt; split.
    - apply list_elem_of_fmap. exists p. split; [done|].
      apply list_elem_of_lookup. exists j. by rewrite lookup_take_lt.
    - intros Hin. apply list_elem_of_fmap in Hin as (p' & Heq & Hin).
      apply list_elem_of_lookup in Hin as [j' Hj']. rewrite lookup_drop in Hj'.
      specialize (Hd _ _ Hj' (eq_sym Heq)). lia.
    - intros Hin. apply list_elem_of_fmap in Hin as (p' & Heq & Hin).
      apply list_elem_of_lookup in Hin as [j' Hj'].
      apply lookup_take_Some in Hj' as [Hj' Hlt'].
      specialize (Hd _ _ Hj' (eq_sym Heq)). lia.
    - apply list_elem_of_fmap. exists p. split; [done|].
      apply list_elem_of_lookup. exists (j - n). rewrite lookup_drop.
      rewrite <- Hj. f_equal. lia. }
  destruct (bind_keywords (drop n ps) kwargs a1 None) as [[[a2 k2] kp]|e] eqn:Hk;
    [|done].
  destruct (bind_keywords_plain _ _ _ _ _ _ _ Hps' Hnd' Hk) as (-> & Hin & Hout).
  simpl. case_bool_decide as Hsz; [|done]. intros [= <-].
  apply map_size_empty_inv in Hsz. subst k2.
  split; [|split].
  - intros j p v Hj Hv.
    assert (Hlt : (j < n)%nat) by (by eapply lookup_lt_Some).
    destruct (Hsplit _ _ Hj) as [Hl _]. destruct (Hl Hlt) as [_ Hnot].
    destruct (Hout _ Hnot) as [-> _]. by eapply Hpos.
  - intros j p Hj Hge.
    destruct (Hsplit _ _ Hj) as [_ Hr]. destruct (Hr Hge) as [Hnot Hdrop].
    destruct (Hin _ Hdrop) as [-> _]. rewrite (Hother _ Hnot).
    rewrite lookup_empty. by destruct (kwargs !! name p).
  - intros j p Hj Hlt.
    destruct (Hsplit _ _ Hj) as [Hl _]. destruct (Hl Hlt) as [_ Hnot].
    destruct (Hout _ Hnot) as [_ Hkk]. by rewrite lookup_empty in Hkk.
Qed.

(** *** Defaults *)

Lemma dict_fold_other (pairs : list (string * Value)) (acc : gmap string Value) k :
  k ∉ pairs.*1 →
  fold_left (fun d kv => <[kv.1 := kv.2]> d) pairs acc !! k = acc !! k.
Proof.
  revert acc. induction pairs as [|[k' v'] pairs IH]; intros acc Hk; simpl;
    [done|].
  rewrite fmap_cons, not_elem_of_cons in Hk. destruct Hk as [Hne Hk].
  rewrite IH by done. by apply lookup_insert_ne.
Qed.

Lemma dict_lookup (pairs : list (string * Value)) k v :
  NoDup pairs.*1 → (k, v) ∈ pairs → dict pairs !! k = Some v.
Proof.
  unfold dict. generalize (∅ : gmap string Value).
  induction pairs as [|[k' v'] pairs IH]; intros acc Hnd Hin; simpl.
  - by apply not_elem_of_nil in Hin.
  - rewrite fmap_cons in Hnd. apply NoDup_cons in Hnd as [Hk' Hnd].
    apply elem_of_cons in Hin as [[= <- <-]|Hin].
    + rewrite dict_fold_other by done. apply lookup_insert_eq.
    + by apply IH.
Qed.

Lemma new_arguments_names (parameters : list Param)
    (arguments : gmap string Value) :
  (new_arguments parameters arguments).*1 `sublist_of` name <$> parameters.
Proof.
  induction parameters as [|p ps IH]; simpl; [done|].
  repeat case_match; simpl; try (by apply sublist_skip); by apply sublist_cons.
Qed.

Lemma new_arguments_default (parameters : list Param)
    (arguments : gmap string Value) p d :
  p ∈ parameters → default p = Some d →
  (name p, dict_get arguments (name p) d) ∈ new_arguments parameters arguments.
Proof.
  intros Hin Hd. induction parameters as [|q ps IH]; simpl.
  - by apply not_elem_of_nil in Hin.
  - assert (Htl : p ∈ ps →
              (name p, dict_get arguments (name p) d)
              ∈ new_arguments (q :: ps) arguments).
    { intros Hp. specialize (IH Hp). simpl.
      repeat case_match; try done; by apply elem_of_cons; right. }
    apply elem_of_cons in Hin as [<-|Hin]; [|by apply Htl].
    unfold dict_get. destruct (arguments !! name p) as [v|].
    + by apply elem_of_cons; left.
    + rewrite Hd. by apply elem_of_cons; left.
Qed.

Lemma apply_defaults_lookup (parameters : list Param)
    (arguments : gmap string Value) p d :
  NoDup (name <$> parameters) → p ∈ parameters → default p = Some d →
  apply_defaults parameters arguments !! name p
  = Some (dict_get arguments (name p) d).
Proof.
  intros Hnd Hin Hd. unfold apply_defaults. apply dict_lookup.
  - eapply sublist_NoDup; [exact Hnd|apply new_arguments_names].
  - by apply new_arguments_default.
Qed.

Lemma check_parameters_passed (parameters : list param_info)
    (arguments : gmap string Value) info value :
  check_parameters parameters arguments = Return true →
  info ∈ parameters → is_Any (info_annotation info) = false →
  arguments !! info_name info = Some value →
  check_type value (info_annotation info) = Return tt.
Proof.
  intros Hc Hin Hany Hv. induction parameters as [|p ps IH]; simpl in Hc.
  - by apply not_elem_of_nil in Hin.
  - apply elem_of_cons in Hin as [<-|Hin].
    + rewrite Hv, Hany in Hc. unfold _check_argument_type in Hc. res_unfold.
      destruct (check_type value (info_annotation info)) as [[]|e]; [done|].
      by destruct (isinstance e TypeCheckError).
    + apply IH; [|done].
      destruct (arguments !! info_name p) as [v|]; [|done].
      destruct (is_Any (info_annotation p)); [done|]. res_unfold.
      destruct (_check_argument_type v (info_annotation p)) as [[|]|e]; done.
Qed.

(** X18.  For a function paired with the signature extracted from it, and
    a parameter with a default and a declared type other than [Any]: once
    the arguments bind, the value that is checked is the default when the
    caller gives neither a positional nor a keyword value, and the caller's
    value otherwise; that value is what [apply_defaults] leaves under the
    parameter's name; the candidate survives only if [check_type] accepts
    it, and is eliminated when [check_type] raises on it. *)
Theorem default_does_not_exempt func sig args kwargs bound (i : nat)
    param d a t :
  well_formed func → plain_func func →
  get_function_signature func = Return sig →
  func_parameters func !! i = Some param →
  default param = Some d →
  annotation param = Some a →
  eval_annotation (__globals__ func) a = Return t → is_Any t = false →
  bind (func_parameters func) args kwargs = Return bound →
  let value := dict_get bound (name param) d in
  (args !! i = None → kwargs !! name param = None → value = d)
  ∧ (∀ v, args !! i = Some v → value = v)
  ∧ (∀ v, kwargs !! name param = Some v → value = v)
  ∧ apply_defaults (func_parameters func) bound !! name param = Some value
  ∧ (survives args kwargs (func, sig) = true → check_type value t = Return tt)
  ∧ (∀ e, check_type value t = Raise e →
       survives args kwargs (func, sig) = false).
Proof.
  intros Hwf Hplain Hsig Hi Hd Ha Ht Hany Hb value.
  assert (Hnd := proj1 Hwf).
  assert (Hin : param ∈ func_parameters func) by by eapply list_elem_of_lookup_2.
  destruct (bind_plain _ _ _ _ Hplain Hnd Hb) as (Hpos & Hrest & Hkw).
  assert (Hdef := apply_defaults_lookup _ bound param d Hnd Hin Hd).
  assert (Hpass : survives args kwargs (func, sig) = true →
                  check_type value t = Return tt).
  { unfold survives, type_matched. simpl. res_unfold. rewrite Hb.
    destruct (check_parameters _ _) as [[|]|e] eqn:Hc; try done. intros _.
    destruct (extracted_annotated func sig i param a t Hwf Hsig Hi Ha Ht)
      as (info & Hinfo & Hname & Hann).
    rewrite <- Hann.
    eapply (check_parameters_passed _ _ info value Hc).
    - by eapply list_elem_of_lookup_2.
    - by rewrite Hann.
    - by rewrite Hname. }
  split; [|split; [|split; [|split; [done|split; [done|]]]]].
  - intros Hai Hki. subst value. unfold dict_get.
    rewrite (Hrest i param Hi); [by rewrite Hki|].
    by apply lookup_ge_None.
  - intros v Hv. subst value. unfold dict_get. by rewrite (Hpos i param v Hi Hv).
  - intros v Hv. subst value. unfold dict_get.
    destruct (decide (i < length args)%nat) as [Hlt|Hge].
    + rewrite (Hkw i param Hi Hlt) in Hv. done.
    + rewrite (Hrest i param Hi) by lia. by rewrite Hv.
  - intros e He. destruct (survives args kwargs (func, sig)) eqn:Hs; [|done].
    rewrite (Hpass eq_refl) in He. done.
Qed.

(** *** Handles stay allocated, and what escapes the handler *)

Lemma allocated_init func σ self σ' :
  __init__ func σ = (Return self, σ') → allocated self σ'.
Proof.
  unfold __init__. py_unfold. unfold new_func_list, new_sig_list.
  destruct (check_var_parameters (func_parameters func)) as [[]|e]; [|done].
  simpl. destruct (get_function_signature func) as [sig|e]; [|done]. simpl.
  intros [= <- <-]. split; simpl; rewrite lookup_insert_eq; by eexists.
Qed.

Lemma is_Some_insert_keep {A} (lists : gmap nat A) r r' x :
  is_Some (lists !! r) → is_Some (<[r':=x]> lists !! r).
Proof.
  intros Hr. destruct (decide (r' = r)) as [->|Hne].
  - rewrite lookup_insert_eq. by eexists.
  - by rewrite lookup_insert_ne.
Qed.

Lemma is_Some_alter_keep {A} (lists : gmap nat A) r r' f :
  is_Some (lists !! r) → is_Some (alter f r' lists !! r).
Proof.
  intros [x Hx]. destruct (decide (r' = r)) as [->|Hne].
  - rewrite lookup_alter_eq, Hx. by eexists.
  - rewrite lookup_alter_ne by done. by eexists.
Qed.

Lemma allocated_step self σ σ' :
  allocated self σ → step σ σ' → allocated self σ'.
Proof.
  intros [Hf Hs] Hstep.
  destruct Hstep as [func σ r σ' Ho|self0 func σ r σ' Ho
                    |self0 args kwargs σ r σ' Ho].
  - replace σ' with (__init__ func σ).2 by by rewrite Ho. clear Ho.
    unfold __init__. py_unfold. unfold new_func_list, new_sig_list.
    destruct (check_var_parameters (func_parameters func)) as [[]|e];
      [|by split].
    simpl. destruct (get_function_signature func) as [sig|e]; simpl.
    + split; simpl; by apply is_Some_insert_keep.
    + split; simpl; [by apply is_Some_insert_keep|done].
  - replace σ' with (overload self0 func σ).2 by by rewrite Ho. clear Ho.
    unfold overload. py_unfold. unfold append_func, append_sig.
    destruct (check_var_parameters (func_parameters func)) as [[]|e];
      [|by split].
    simpl. destruct (get_function_signature func) as [sig|e]; simpl.
    + split; simpl; by apply is_Some_alter_keep.
    + split; simpl; [by apply is_Some_alter_keep|done].
  - replace σ' with (__call__ self0 args kwargs σ).2 by by rewrite Ho.
    destruct (call_store self0 args kwargs σ) as [w ->].
    rewrite resolve_eq. split; simpl; [by apply is_Some_insert_keep|done].
Qed.

(** X16.  The handler of the loop catches [TypeError] only: when the first
    candidate whose check raises anything else is reached, the call raises
    that exception and runs no candidate, whatever the later candidates
    would have done. *)
Lemma escaping_exception_propagates self args kwargs σ pre c post e :
  candidates self σ = pre ++ c :: post →
  settled pre args kwargs → escapes args kwargs c = Some e →
  outcome self args kwargs σ = (Raise e, world σ).
Proof.
  intros Hc Hpre He. rewrite outcome_eq, Hc.
  assert (Hscan : (scan (pre ++ c :: post) args kwargs).2 = Raise e).
  { clear Hc. induction Hpre as [|c' pre Hc' _ IH]; simpl.
    - unfold escapes in He.
      destruct (type_matched c.1 c.2 args kwargs) as [[|]|e']; try done.
      destruct (isinstance e' TypeError); [done|]. by injection He as ->.
    - unfold escapes in Hc'.
      destruct (type_matched c'.1 c'.2 args kwargs) as [[|]|e']; try done.
      + by destruct (scan (pre ++ c :: post) args kwargs).
      + by destruct (isinstance e' TypeError). }
  unfold decision. by rewrite Hscan.
Qed.

Lemma step_init_run func σ : step σ (__init__ func σ).2.
Proof. eapply step_init. apply surjective_pairing. Qed.

Lemma step_overload_run self func σ : step σ (overload self func σ).2.
Proof. eapply step_overload. apply surjective_pairing. Qed.

Lemma step_call_run self args kwargs σ : step σ (__call__ self args kwargs σ).2.
Proof. eapply step_call. apply surjective_pairing. Qed.

Lemma settled_check cands args kwargs :
  forallb (fun c => match escapes args kwargs c with
                    | None => true
                    | Some _ => false
                    end) cands = true →
  settled cands args kwargs.
Proof.
  intros Hall. apply Forall_forall. intros c Hc.
  rewrite forallb_forall in Hall. apply list_elem_of_In in Hc.
  specialize (Hall c Hc). by destruct (escapes args kwargs c).
Qed.

End Theorems.

(** * The scenarios *)

(** A string literal is not in a list of other literals. *)
Ltac not_among :=
  let Hin := fresh "Hin" in
  simpl; intros Hin;
  repeat (apply elem_of_cons in Hin as [Hin|Hin]; [discriminate Hin|]);
  by apply not_elem_of_nil in Hin.

Lemma call_decides_by_survivor_count_witness :
  settled (guard:=scalar_guard) (candidates f_registered.1 f_registered.2)
    [VInt 1; VStr "2"] ∅
  ∧ survivors (guard:=scalar_guard) (candidates f_registered.1 f_registered.2)
      [VInt 1; VStr "2"] ∅ = [f_int_str]
  ∧ ((__call__ (guard:=scalar_guard) f_registered.1 [VInt 1; VStr "2"] ∅
        f_registered.2).1,
     world (__call__ (guard:=scalar_guard) f_registered.1 [VInt 1; VStr "2"] ∅
        f_registered.2).2)
    = (Return (VInt 1), ["f_int_str"]).
Proof.
  assert (Hs : settled (guard:=scalar_guard)
                 (candidates f_registered.1 f_registered.2) [VInt 1; VStr "2"] ∅).
  { apply settled_check. vm_compute. reflexivity. }
  assert (Hm : survivors (guard:=scalar_guard)
                 (candidates f_registered.1 f_registered.2) [VInt 1; VStr "2"] ∅
               = [f_int_str]).
  { vm_compute. reflexivity. }
  split; [exact Hs|]. split; [exact Hm|].
  destruct (call_decides_by_survivor_count (guard:=scalar_guard)
              f_registered.1 [VInt 1; VStr "2"] ∅ f_registered.2 Hs)
    as (_ & Hone & _).
  rewrite (Hone f_int_str Hm). reflexivity.
Defined.

(** The four calls of the first scenario. *)
Example f_scenario :
  outcome (guard:=scalar_guard) f_registered.1 [VInt 1; VStr "2"] ∅ f_registered.2
  = (Return (VInt 1), ["f_int_str"])
  ∧ outcome (guard:=scalar_guard) f_registered.1 [VStr "1"; VInt 2] ∅
      f_registered.2
    = (Return (VInt 2), ["f_str_int"])
  ∧ outcome (guard:=scalar_guard) f_registered.1 [VInt 1; VInt 2] ∅ f_registered.2
    = (Raise (NoMatchError [VInt 1; VInt 2] ∅), [])
  ∧ outcome (guard:=scalar_guard) f_registered.1 [VStr "1"; VStr "2"] ∅
      f_registered.2
    = (Raise (NoMatchError [VStr "1"; VStr "2"] ∅), []).
Proof. repeat split; vm_compute; reflexivity. Qed.


Lemma variadic_rejected_at_registration_witness :
  __init__ v_rest empty_store = (Raise InvalidOverloadError, empty_store)
  ∧ overload h_registered.1 k_options h_registered.2
    = (Raise InvalidOverloadError, h_registered.2)
  ∧ no_variadic empty_store
  ∧ rtc (step (guard:=scalar_guard)) empty_store
      (__call__ (guard:=scalar_guard) f_registered.1 [VInt 1; VStr "2"] ∅
         f_registered.2).2
  ∧ no_variadic
      (__call__ (guard:=scalar_guard) f_registered.1 [VInt 1; VStr "2"] ∅
         f_registered.2).2.
Proof.
  destruct (variadic_rejected_at_registration (World:=list string)
              (guard:=scalar_guard)) as (Hinit & Hoverload & Hinv).
  assert (Hempty : no_variadic empty_store).
  { split; intros r l Hl; simpl in Hl; by rewrite lookup_empty in Hl. }
  assert (Hrun : rtc (step (guard:=scalar_guard)) empty_store
                   (__call__ (guard:=scalar_guard) f_registered.1
                      [VInt 1; VStr "2"] ∅ f_registered.2).2).
  { apply (rtc_l _ _ (__init__ f_int_str empty_store).2);
      [apply step_init_run|].
    apply (rtc_l _ _ f_registered.2);
      [exact (step_overload_run f_registered.1 f_str_int
                (__init__ f_int_str empty_store).2)|].
    apply rtc_once. apply step_call_run. }
  split; [|split; [|split; [exact Hempty|split; [exact Hrun|]]]].
  - apply Hinit. apply Exists_cons_hd. reflexivity.
  - apply Hoverload. apply Exists_cons_hd. reflexivity.
  - exact (Hinv _ _ Hempty Hrun).
Defined.

Lemma overload_extraction_failure_keeps_callable_witness :
  plain_func u_missing
  ∧ func_lists h_registered.2 !! func_list h_registered.1 = Some [h]
  ∧ length (sig_lists h_registered.2 !!! signatures h_registered.1) = 1
  ∧ ∃ n' σ',
      overload h_registered.1 u_missing h_registered.2
      = (Raise (name_not_defined n'), σ')
      ∧ func_lists σ' !! func_list h_registered.1 = Some ([h] ++ [u_missing])
      ∧ sig_lists σ' !! signatures h_registered.1
        = Some (sig_lists h_registered.2 !!! signatures h_registered.1)
      ∧ length ([h] ++ [u_missing])
        ≠ length (sig_lists h_registered.2 !!! signatures h_registered.1).
Proof.
  assert (Hplain : plain_func u_missing).
  { repeat constructor. }
  split; [exact Hplain|]. split; [vm_compute; reflexivity|].
  split; [vm_compute; reflexivity|].
  eapply (overload_extraction_failure_keeps_callable h_registered.1 u_missing
            h_registered.2 _ "Missing" [h] _ Hplain).
  - apply list_elem_of_here.
  - reflexivity.
  - reflexivity.
  - vm_compute. reflexivity.
  - vm_compute. reflexivity.
  - vm_compute. reflexivity.
Defined.

(** After the failed registration of [u], a later overload is paired with
    no signature of its own: [f(a: str, b: int)] is registered and is never
    dispatched to, while it is when [u] was not tried. *)
Example later_overload_is_lost :
  let σ1 := (overload h_registered.1 u_missing h_registered.2).2 in
  let σ2 := (overload h_registered.1 f_str_int σ1).2 in
  let σ2' := (overload h_registered.1 f_str_int h_registered.2).2 in
  outcome (guard:=scalar_guard) h_registered.1 [VStr "s"; VInt 1] ∅ σ2
  = (Raise (NoMatchError [VStr "s"; VInt 1] ∅), [])
  ∧ outcome (guard:=scalar_guard) h_registered.1 [VStr "s"; VInt 1] ∅ σ2'
    = (Return (VInt 2), ["f_str_int"]).
Proof. split; vm_compute; reflexivity. Qed.

Lemma binding_failure_eliminates_candidate_witness :
  binding_failure (func_parameters h) [VInt 5; VStr "x"] ∅
  ∧ binding_failure (func_parameters f_int_str) [VInt 5] {["c" := VInt 1]}
  ∧ binding_failure (func_parameters f_int_str) [VInt 5] ∅
  ∧ outcome (guard:=scalar_guard) h_f_registered.1 [VInt 5; VStr "x"] ∅
      h_f_registered.2
    = outcome (guard:=scalar_guard) f_alone.1 [VInt 5; VStr "x"] ∅ f_alone.2
  ∧ outcome (guard:=scalar_guard) f_alone.1 [VInt 5; VStr "x"] ∅ f_alone.2
    = (Return (VInt 1), ["f_int_str"]).
Proof.
  assert (Harity : binding_failure (func_parameters h) [VInt 5; VStr "x"] ∅).
  { apply arity_mismatch; [repeat constructor|simpl; lia]. }
  split; [exact Harity|]. split; [|split; [|split]].
  - apply (unknown_keyword _ _ _ "c"); [repeat constructor|by eexists|].
    not_among.
  - apply (missing_required _ _ _ 1 (typed "b" TStr)); reflexivity.
  - destruct (binding_failure_eliminates_candidate (guard:=scalar_guard)
                h (signature_of h) [VInt 5; VStr "x"] ∅ Harity)
      as (_ & _ & Hcall).
    apply (Hcall h_f_registered.1 h_f_registered.2 f_alone.1 f_alone.2 0);
      vm_compute; reflexivity.
  - vm_compute. reflexivity.
Defined.

Lemma unannotated_parameter_is_unconstrained_witness :
  well_formed q_untyped
  ∧ get_function_signature q_untyped = Return (signature_of q_untyped)
  ∧ (∃ info, sig_parameters (signature_of q_untyped) !! 0 = Some info
             ∧ info_name info = "x" ∧ info_annotation info = Any)
  ∧ (∀ arguments,
       check_parameters (guard:=scalar_guard)
         (sig_parameters (signature_of q_untyped)) arguments
       = check_parameters (guard:=scalar_guard)
           (delete 0 (sig_parameters (signature_of q_untyped))) arguments)
  ∧ check_parameters (guard:=scalar_guard)
      (sig_parameters (signature_of q_untyped))
      {["x" := VStr "s"; "y" := VStr "t"]} = Return false
  ∧ (∃ (j : nat) q, j ≠ 0 ∧ func_parameters q_untyped !! j = Some q
                    ∧ is_Some (annotation q)).
Proof.
  assert (Hwf : well_formed q_untyped).
  { split.
    - apply NoDup_cons. split; [not_among|]. apply NoDup_singleton.
    - not_among. }
  assert (Hsig : get_function_signature q_untyped
                 = Return (signature_of q_untyped)).
  { vm_compute. reflexivity. }
  assert (Hrej : check_parameters (guard:=scalar_guard)
                   (sig_parameters (signature_of q_untyped))
                   {["x" := VStr "s"; "y" := VStr "t"]} = Return false).
  { vm_compute. reflexivity. }
  destruct (unannotated_parameter_is_unconstrained (guard:=scalar_guard)
              q_untyped (signature_of q_untyped) 0 _ Hwf Hsig eq_refl eq_refl)
    as (Hany & Hskip & Hother).
  split; [exact Hwf|]. split; [exact Hsig|]. split; [exact Hany|].
  split; [exact Hskip|]. split; [exact Hrej|].
  destruct (Hother _ Hrej) as (j & q & _ & _ & _ & Hne & Hq & Ha & _).
  by exists j, q.
Defined.

Lemma default_does_not_exempt_witness :
  bind (func_parameters h) [] ∅ = Return ∅
  ∧ apply_defaults (func_parameters h) ∅ !! "x" = Some (VInt 0)
  ∧ scalar_guard (VInt 0) TInt = Return tt
  ∧ outcome (guard:=scalar_guard) h_registered.1 [] ∅ h_registered.2
    = (Return (VInt 7), ["h"])
  ∧ bind (func_parameters h) [VStr "s"] ∅ = Return {["x" := VStr "s"]}
  ∧ survives (guard:=scalar_guard) [VStr "s"] ∅ (h, signature_of h) = false
  ∧ outcome (guard:=scalar_guard) h_registered.1 [VStr "s"] ∅ h_registered.2
    = (Raise (NoMatchError [VStr "s"] ∅), [])
  ∧ bind (func_parameters h) [] {["x" := VStr "s"]}
    = Return {["x" := VStr "s"]}
  ∧ survives (guard:=scalar_guard) [] {["x" := VStr "s"]} (h, signature_of h)
    = false
  ∧ bind (func_parameters h) [] {["x" := VInt 5]} = Return {["x" := VInt 5]}
  ∧ scalar_guard (VInt 5) TInt = Return tt
  ∧ outcome (guard:=scalar_guard) h_registered.1 [] {["x" := VInt 5]}
      h_registered.2
    = (Return (VInt 7), ["h"]).
Proof.
  assert (Hwf : well_formed h).
  { split; [apply NoDup_singleton|not_among]. }
  assert (Hplain : plain_func h) by repeat constructor.
  assert (Hsig : get_function_signature h = Return (signature_of h)).
  { vm_compute. reflexivity. }
  assert (Homit : bind (func_parameters h) [] ∅ = Return ∅).
  { vm_compute. reflexivity. }
  assert (Hgiven : bind (func_parameters h) [VStr "s"] ∅
                   = Return {["x" := VStr "s"]}).
  { vm_compute. reflexivity. }
  assert (Hkey : bind (func_parameters h) [] {["x" := VStr "s"]}
                 = Return {["x" := VStr "s"]}).
  { vm_compute. reflexivity. }
  assert (Hkey5 : bind (func_parameters h) [] {["x" := VInt 5]}
                  = Return {["x" := VInt 5]}).
  { vm_compute. reflexivity. }
  destruct (default_does_not_exempt (guard:=scalar_guard) h (signature_of h)
              [] ∅ ∅ 0 _ (VInt 0) (Evaluated TInt) TInt Hwf Hplain Hsig
              eq_refl eq_refl eq_refl eq_refl eq_refl Homit)
    as (_ & _ & _ & Hbound & Hpass & _).
  destruct (default_does_not_exempt (guard:=scalar_guard) h (signature_of h)
              [VStr "s"] ∅ {["x" := VStr "s"]} 0 _ (VInt 0) (Evaluated TInt)
              TInt Hwf Hplain Hsig eq_refl eq_refl eq_refl eq_refl eq_refl
              Hgiven)
    as (_ & _ & _ & _ & _ & Hfail).
  destruct (default_does_not_exempt (guard:=scalar_guard) h (signature_of h)
              [] {["x" := VStr "s"]} {["x" := VStr "s"]} 0 _ (VInt 0)
              (Evaluated TInt) TInt Hwf Hplain Hsig eq_refl eq_refl eq_refl
              eq_refl eq_refl Hkey)
    as (_ & _ & _ & _ & _ & Hkfail).
  destruct (default_does_not_exempt (guard:=scalar_guard) h (signature_of h)
              [] {["x" := VInt 5]} {["x" := VInt 5]} 0 _ (VInt 0)
              (Evaluated TInt) TInt Hwf Hplain Hsig eq_refl eq_refl eq_refl
              eq_refl eq_refl Hkey5)
    as (_ & _ & _ & _ & Hkpass & _).
  split; [exact Homit|]. split; [exact Hbound|]. split.
  { apply Hpass. vm_compute. reflexivity. }
  split; [vm_compute; reflexivity|]. split; [exact Hgiven|]. split.
  { eapply Hfail. vm_compute. reflexivity. }
  split; [vm_compute; reflexivity|]. split; [exact Hkey|]. split.
  { eapply Hkfail. vm_compute. reflexivity. }
  split; [exact Hkey5|]. split.
  { apply Hkpass. vm_compute. reflexivity. }
  vm_compute. reflexivity.
Defined.

Lemma repeated_call_same_outcome_witness :
  let first := __call__ (guard:=scalar_guard) f_registered.1
                 [VInt 1; VStr "2"] ∅ f_registered.2 in
  let second := __call__ (guard:=scalar_guard) f_registered.1
                  [VInt 1; VStr "2"] ∅ first.2 in
  (resolve (guard:=scalar_guard) f_registered.1 [VInt 1; VStr "2"] ∅
     f_registered.2).1 = Return f_int_str
  ∧ (resolve (guard:=scalar_guard) f_registered.1 [VInt 1; VStr "2"] ∅
       first.2).1 = Return f_int_str
  ∧ first.1 = Return (VInt 1) ∧ second.1 = Return (VInt 1)
  ∧ world second.2 = ["f_int_str"; "f_int_str"].
Proof.
  intros first second.
  assert (Hr : (resolve (guard:=scalar_guard) f_registered.1
                  [VInt 1; VStr "2"] ∅ f_registered.2).1 = Return f_int_str).
  { vm_compute. reflexivity. }
  destruct (repeated_call_same_outcome (guard:=scalar_guard) f_registered.1
              [VInt 1; VStr "2"] ∅ f_registered.2) as (Hsame & _ & Hrun).
  destruct (Hrun f_int_str Hr) as [H1 H2].
  split; [exact Hr|]. split; [exact (eq_trans Hsame Hr)|].
  split; [exact H1|]. split; [exact H2|].
  vm_compute. reflexivity.
Defined.

Lemma call_leaves_registry_witness :
  allocated f_registered.1 f_registered.2
  ∧ func_lists f_registered.2 !! func_list f_registered.1
    = Some [f_int_str; f_str_int]
  ∧ func_lists (__call__ (guard:=scalar_guard) f_registered.1
                  [VInt 1; VStr "2"] ∅ f_registered.2).2
      !! func_list f_registered.1
    = Some [f_int_str; f_str_int]
  ∧ sig_lists (__call__ (guard:=scalar_guard) f_registered.1
                 [VInt 1; VStr "2"] ∅ f_registered.2).2
    = sig_lists f_registered.2.
Proof.
  assert (Ha : allocated f_registered.1 f_registered.2).
  { split; vm_compute; by eexists. }
  assert (Hf : func_lists f_registered.2 !! func_list f_registered.1
               = Some [f_int_str; f_str_int]).
  { vm_compute. reflexivity. }
  destruct (call_leaves_registry (guard:=scalar_guard) f_registered.1
              [VInt 1; VStr "2"] ∅ f_registered.2 Ha) as (H1 & _ & _ & H4).
  split; [exact Ha|]. split; [exact Hf|]. split; [|exact H4].
  by rewrite H1.
Defined.

Lemma type_error_during_check_eliminates_witness :
  bind (func_parameters w_weird) [VInt 1] ∅ = Return {["x" := VInt 1]}
  ∧ failing_guard TypeError (VInt 1) (TClass "Weird")
    = Raise (Exn TypeError (Text "isinstance() arg 2 must be a type"))
  ∧ outcome (guard:=failing_guard TypeError) w_g_registered.1 [VInt 1] ∅
      w_g_registered.2
    = outcome (guard:=failing_guard TypeError) g_alone.1 [VInt 1] ∅ g_alone.2
  ∧ outcome (guard:=failing_guard TypeError) g_alone.1 [VInt 1] ∅ g_alone.2
    = (Return (VInt 1), ["g_int"]).
Proof.
  assert (Hb : bind (func_parameters w_weird) [VInt 1] ∅
               = Return {["x" := VInt 1]}).
  { vm_compute. reflexivity. }
  split; [exact Hb|]. split; [reflexivity|]. split; [|vm_compute; reflexivity].
  destruct (type_error_during_check_eliminates (guard:=failing_guard TypeError)
              w_weird (signature_of w_weird) [VInt 1] ∅ {["x" := VInt 1]}
              (Exn TypeError (Text "isinstance() arg 2 must be a type")) Hb)
    as (_ & _ & _ & _ & Hcall).
  - vm_compute. reflexivity.
  - reflexivity.
  - apply (Hcall w_g_registered.1 w_g_registered.2 g_alone.1 g_alone.2 0);
      vm_compute; reflexivity.
Defined.

(** * Further properties *)

Section Further.
Context {World : Type} {guard : TypeGuard}.
Implicit Types (σ : Store World) (func : Func World) (self : OverloadFunction).
Implicit Types (cands : list (Func World * signature_info))
  (c : Func World * signature_info).

Ltac run_unfold :=
  unfold mbind, mret, Py_bind, Py_ret, result_bind, result_ret, pure, raise,
    try_except in *.

(** *** The signature extractor *)

Lemma hints_of_parameters_evaluates globals (parameters : list Param)
    hints hints' p a :
  hints_of_parameters globals parameters hints = Return hints' →
  p ∈ parameters → annotation p = Some a →
  ∃ t, eval_annotation globals a = Return t.
Proof.
  revert hints. induction parameters as [|q ps IH]; intros hints Hh Hin Ha.
  - by apply not_elem_of_nil in Hin.
  - simpl in Hh. apply elem_of_cons in Hin as [<-|Hin].
    + rewrite Ha in Hh. run_unfold.
      destruct (eval_annotation globals a) as [t|e]; [by exists t|done].
    + destruct (annotation q) as [a'|]; [|by eapply IH].
      run_unfold. destruct (eval_annotation globals a') as [t'|e]; [|done].
      by eapply IH.
Qed.

(** X1.  On success [get_function_signature] records the function's name
    and, in declaration order, one dict per parameter with its name, kind
    and default, [required] exactly when there is no default, and the
    evaluated annotation ([Any] without one); the return annotation is
    recorded the same way. *)
Theorem extraction_records_declaration func sig :
  well_formed func → get_function_signature func = Return sig →
  sig_name sig = __name__ func
  ∧ length (sig_parameters sig) = length (func_parameters func)
  ∧ (∀ (i : nat) param, func_parameters func !! i = Some param →
       ∃ info, sig_parameters sig !! i = Some info
         ∧ info_name info = name param ∧ info_kind info = kind param
         ∧ info_default info = default param
         ∧ (info_required info = true ↔ default param = None)
         ∧ match annotation param with
           | None => info_annotation info = Any
           | Some a => eval_annotation (__globals__ func) a
                       = Return (info_annotation info)
           end)
  ∧ match func_return func with
    | None => sig_return_annotation sig = Any
    | Some a => eval_annotation (__globals__ func) a
                = Return (sig_return_annotation sig)
    end.
Proof.
  intros Hwf Hsig. assert (Hwf' := Hwf). destruct Hwf' as [Hnd Hret].
  assert (Hparams : ∀ (i : nat) param, func_parameters func !! i = Some param →
            ∃ info, sig_parameters sig !! i = Some info
              ∧ info_name info = name param ∧ info_kind info = kind param
              ∧ info_default info = default param
              ∧ (info_required info = true ↔ default param = None)
              ∧ match annotation param with
                | None => info_annotation info = Any
                | Some a => eval_annotation (__globals__ func) a
                            = Return (info_annotation info)
                end).
  { intros i param Hi.
    destruct (get_function_signature_Return _ _ Hsig) as (h0 & hints & Hh & Hk & Hps).
    assert (Hin : param ∈ func_parameters func) by by eapply list_elem_of_lookup_2.
    destruct (annotation param) as [a|] eqn:Ha.
    - destruct (hints_of_parameters_evaluates _ _ _ _ _ _ Hh Hin Ha) as [t Ht].
      destruct (extracted_annotated func sig i param a t Hwf Hsig Hi Ha Ht)
        as (info & Hinfo & Hname & Hann).
      exists info. rewrite Hann. split; [done|]. split; [done|].
      rewrite Hps, list_lookup_fmap, Hi in Hinfo. injection Hinfo as <-. simpl.
      repeat split; try done.
      + intros Hr. apply negb_true_iff, bool_decide_eq_false in Hr.
        destruct (default param); [|done]. exfalso. by apply Hr.
      + intros ->. apply negb_true_iff, bool_decide_eq_false. by intros [? ?].
    - destruct (extracted_unannotated func sig i param Hwf Hsig Hi Ha)
        as (info & Hinfo & Hname & Hann).
      exists info. split; [done|]. split; [done|].
      rewrite Hps, list_lookup_fmap, Hi in Hinfo. injection Hinfo as <-. simpl.
      repeat split; try done.
      + intros Hr. apply negb_true_iff, bool_decide_eq_false in Hr.
        destruct (default param); [|done]. exfalso. by apply Hr.
      + intros ->. apply negb_true_iff, bool_decide_eq_false. by intros [? ?]. }
  split; [|split; [|split; [exact Hparams|]]].
  - unfold get_function_signature in Hsig. run_unfold.
    destruct (get_type_hints func); [|done]. by injection Hsig as <-.
  - destruct (get_function_signature_Return _ _ Hsig) as (h0 & hints & _ & _ & ->).
    by rewrite length_map.
  - unfold get_function_signature, get_type_hints in Hsig. run_unfold.
    destruct (hints_of_parameters _ _ _) as [h0|e] eqn:Hh; [|done].
    destruct (func_return func) as [a|].
    + destruct (eval_annotation _ a) as [t|e]; [|done]. injection Hsig as <-.
      simpl. unfold dict_get. by rewrite lookup_insert_eq.
    + injection Hsig as <-. simpl. unfold dict_get.
      rewrite (hints_of_parameters_other _ _ _ _ "return" Hh); [done|].
      intros q Hq _ Heq. apply Hret. rewrite <- Heq.
      apply list_elem_of_fmap. by exists q.
Qed.

(** X2.  For a function one of whose annotations, of a parameter or of
    the result, is a forward reference to a name that is not defined,
    [get_function_signature] raises; so [__init__] returns no handle for
    it and [overload] of it raises. *)
Theorem unresolved_name_fails_registration func n :
  unresolved_name func n →
  (∃ e, get_function_signature func = Raise e)
  ∧ (∀ σ, ∃ e σ', __init__ func σ = (Raise e, σ'))
  ∧ (∀ self σ, ∃ e σ', overload self func σ = (Raise e, σ')).
Proof.
  intros Hun.
  assert (Hsig : ∃ e, get_function_signature func = Raise e).
  { destruct Hun as [[(p & Hin & Ha)|Hr] Hn].
    - destruct (get_function_signature_unresolved func p n Hin Ha Hn)
        as [n' Hn'].
      by eexists.
    - unfold get_function_signature, get_type_hints. run_unfold.
      destruct (hints_of_parameters _ _ _) as [h0|e']; [|by eexists].
      rewrite Hr. simpl. rewrite Hn. by eexists. }
  destruct Hsig as [e He]. split; [by exists e|]. split.
  - intros σ. unfold __init__. run_unfold. unfold new_func_list.
    destruct (check_var_parameters (func_parameters func)) as [[]|e'];
      [|by do 2 eexists].
    simpl. rewrite He. simpl. by do 2 eexists.
  - intros self σ. unfold overload. run_unfold. unfold append_func.
    destruct (check_var_parameters (func_parameters func)) as [[]|e'];
      [|by do 2 eexists].
    simpl. rewrite He. simpl. by do 2 eexists.
Qed.

(** *** The type-checking loop *)

Lemma check_parameters_all_pass (parameters : list param_info)
    (arguments : gmap string Value) :
  (∀ info value, info ∈ parameters → is_Any (info_annotation info) = false →
     arguments !! info_name info = Some value →
     check_type value (info_annotation info) = Return tt) →
  check_parameters parameters arguments = Return true.
Proof.
  induction parameters as [|p ps IH]; intros Hall; simpl; [done|].
  assert (Hps : check_parameters ps arguments = Return true).
  { apply IH. intros info value Hin. apply Hall. by apply elem_of_cons; right. }
  destruct (arguments !! info_name p) as [v|] eqn:Hv; [|done].
  destruct (is_Any (info_annotation p)) eqn:Hany; [done|].
  unfold _check_argument_type. run_unfold.
  rewrite (Hall p v); [done| |done|done]. by apply elem_of_cons; left.
Qed.

(** X6.  A candidate survives exactly when the arguments bind and
    [check_type] accepts, for every parameter of the stored signature whose
    annotation is not [Any], the value bound under its name. *)
Theorem survives_iff_binds_and_passes func sig args kwargs :
  survives args kwargs (func, sig) = true
  ↔ ∃ bound,
      bind (func_parameters func) args kwargs = Return bound
      ∧ ∀ info value,
          info ∈ sig_parameters sig →
          is_Any (info_annotation info) = false →
          apply_defaults (func_parameters func) bound !! info_name info
          = Some value →
          check_type value (info_annotation info) = Return tt.
Proof.
  unfold survives, type_matched. simpl. run_unfold. split.
  - destruct (bind (func_parameters func) args kwargs) as [bound|e]; [|done].
    destruct (check_parameters _ _) as [[|]|e] eqn:Hc; try done. intros _.
    exists bound. split; [done|]. intros info value Hin Hany Hv.
    by eapply check_parameters_passed.
  - intros (bound & -> & Hall).
    by rewrite (check_parameters_all_pass _ _ Hall).
Qed.

Lemma check_parameters_same_constraint (ps qs : list param_info)
    (arguments : gmap string Value) :
  Forall2 same_constraint ps qs →
  check_parameters ps arguments = check_parameters qs arguments.
Proof.
  induction 1 as [|p q ps qs [Hn Ha] _ IH]; simpl; [done|].
  by rewrite Hn, Ha, IH.
Qed.

(** X12.  The verdict on a candidate reads only the names and the
    annotations of the stored signature: kind, default, [required], the
    function name and the return annotation play no part, so keyword-only
    and positional-or-keyword parameters are checked alike. *)
Theorem verdict_ignores_kind_and_default func sig sig' args kwargs :
  Forall2 same_constraint (sig_parameters sig) (sig_parameters sig') →
  type_matched func sig args kwargs = type_matched func sig' args kwargs.
Proof.
  intros Hsame. unfold type_matched. run_unfold.
  destruct (bind (func_parameters func) args kwargs) as [bound|e]; [|done].
  by apply check_parameters_same_constraint.
Qed.

(** X13.  The check stops at the first parameter [check_type] rejects:
    the result is [False] whatever the later parameters are, also when
    checking one of them would have raised. *)
Theorem mismatch_stops_the_check (pre post : list param_info) info
    (arguments : gmap string Value) value e :
  check_parameters pre arguments = Return true →
  arguments !! info_name info = Some value →
  is_Any (info_annotation info) = false →
  check_type value (info_annotation info) = Raise e →
  isinstance e TypeCheckError = true →
  check_parameters (pre ++ info :: post) arguments = Return false.
Proof.
  intros Hpre Hv Hany Hck He. induction pre as [|p pre IH]; simpl.
  - rewrite Hv, Hany. unfold _check_argument_type. run_unfold.
    by rewrite Hck, He.
  - simpl in Hpre. destruct (arguments !! info_name p) as [v|]; [|by apply IH].
    destruct (is_Any (info_annotation p)); [by apply IH|]. run_unfold.
    destruct (_check_argument_type v (info_annotation p)) as [[|]|e']; try done.
    by apply IH.
Qed.


(** *** Registration *)

Lemma candidates_lookup self σ funcs sigs :
  func_lists σ !! func_list self = Some funcs →
  sig_lists σ !! signatures self = Some sigs →
  candidates self σ = zip funcs sigs.
Proof.
  intros Hf Hs. unfold candidates. by rewrite !lookup_total_alt, Hf, Hs.
Qed.

(** X3.  Decorating a function without variadic parameter whose
    annotations resolve gives a handle on two new lists, holding exactly
    that function with its signature, in step; the candidates of every
    handle that existed are unchanged and the function is not run. *)
Theorem init_makes_fresh_handle func sig σ :
  plain_func func → get_function_signature func = Return sig →
  ∃ self σ',
    __init__ func σ = (Return self, σ')
    ∧ func_lists σ !! func_list self = None
    ∧ sig_lists σ !! signatures self = None
    ∧ candidates self σ' = [(func, sig)]
    ∧ allocated self σ' ∧ parallel self σ'
    ∧ (∀ self0, allocated self0 σ →
         candidates self0 σ' = candidates self0 σ)
    ∧ world σ' = world σ.
Proof.
  intros Hplain Hsig. unfold __init__. run_unfold.
  unfold new_func_list, new_sig_list.
  destruct (check_var_parameters_cases (func_parameters func))
    as [[-> _]|[_ Hex]].
  - rewrite Hsig. simpl. do 2 eexists. split; [done|]. simpl.
    assert (Hf : func_lists σ !! fresh (dom (func_lists σ)) = None).
    { apply not_elem_of_dom. apply is_fresh. }
    assert (Hs : sig_lists σ !! fresh (dom (sig_lists σ)) = None).
    { apply not_elem_of_dom. apply is_fresh. }
    split; [done|]. split; [done|].
    split; [|split; [|split; [|split; [|done]]]].
    + unfold candidates. simpl. by rewrite !lookup_total_insert_eq.
    + split; simpl; rewrite lookup_insert_eq; by eexists.
    + unfold parallel. simpl. by rewrite !lookup_total_insert_eq.
    + intros self0 [[l Hl] [k Hk]]. unfold candidates. simpl.
      rewrite !lookup_total_insert_ne; [done| |].
      * intros Heq. rewrite <- Heq in Hk. congruence.
      * intros Heq. rewrite <- Heq in Hl. congruence.
  - apply Exists_exists in Hex as (q & Hq & Hv).
    unfold plain_func in Hplain. rewrite Forall_forall in Hplain.
    specialize (Hplain q Hq). congruence.
Qed.

(** X4.  On a handle whose lists are in step, [overload] of a function
    without variadic parameter whose annotations resolve returns the same
    handle, puts the function with its signature after the existing
    candidates, in registration order, keeps the lists in step and does
    not run the function. *)
Theorem overload_appends_candidate self func sig σ :
  plain_func func → get_function_signature func = Return sig →
  allocated self σ → parallel self σ →
  ∃ σ',
    overload self func σ = (Return self, σ')
    ∧ candidates self σ' = candidates self σ ++ [(func, sig)]
    ∧ allocated self σ' ∧ parallel self σ'
    ∧ world σ' = world σ.
Proof.
  intros Hplain Hsig [[funcs Hf] [sigs Hs]] Hpar. unfold overload. run_unfold.
  unfold append_func, append_sig.
  unfold parallel in Hpar. rewrite !lookup_total_alt, Hf, Hs in Hpar.
  simpl in Hpar.
  destruct (check_var_parameters_cases (func_parameters func))
    as [[-> _]|[_ Hex]].
  - rewrite Hsig. simpl. eexists. split; [done|].
    assert (Hf' : alter (λ l, l ++ [func]) (func_list self) (func_lists σ)
                  !! func_list self = Some (funcs ++ [func])).
    { by rewrite lookup_alter_eq, Hf. }
    assert (Hs' : alter (λ l, l ++ [sig]) (signatures self) (sig_lists σ)
                  !! signatures self = Some (sigs ++ [sig])).
    { by rewrite lookup_alter_eq, Hs. }
    split; [|split; [|split; [|done]]].
    + rewrite (candidates_lookup self σ funcs sigs Hf Hs).
      rewrite (candidates_lookup self _ (funcs ++ [func]) (sigs ++ [sig]));
        [|done..].
      by rewrite zip_with_app.
    + split; simpl; by eexists.
    + unfold parallel. simpl. rewrite !lookup_total_alt, Hf', Hs'. simpl.
      rewrite !length_app. simpl. lia.
  - apply Exists_exists in Hex as (q & Hq & Hv).
    unfold plain_func in Hplain. rewrite Forall_forall in Hplain.
    specialize (Hplain q Hq). congruence.
Qed.



(** *** Resolution *)





Lemma settled_outcome self args kwargs σ :
  settled (candidates self σ) args kwargs →
  outcome self args kwargs σ =
  match decision args kwargs
          (survivors (candidates self σ) args kwargs, Return tt) with
  | Return func => func_call func args kwargs (world σ)
  | Raise e => (Raise e, world σ)
  end.
Proof. intros Hs. by rewrite outcome_eq, (scan_settled _ _ _ Hs). Qed.





Lemma overload_appends self func sig σ :
  plain_func func → get_function_signature func = Return sig →
  allocated self σ → parallel self σ →
  (overload self func σ).1 = Return self
  ∧ candidates self (overload self func σ).2
    = candidates self σ ++ [(func, sig)]
  ∧ world (overload self func σ).2 = world σ.
Proof.
  intros Hplain Hsig [[funcs Hf] [sigs Hs]] Hpar. unfold overload. run_unfold.
  unfold append_func, append_sig.
  unfold parallel in Hpar. rewrite !lookup_total_alt, Hf, Hs in Hpar.
  simpl in Hpar.
  destruct (check_var_parameters_cases (func_parameters func))
    as [[-> _]|[_ Hex]].
  - rewrite Hsig. simpl. split; [done|]. split; [|done].
    rewrite (candidates_lookup self σ funcs sigs Hf Hs).
    rewrite (candidates_lookup self _ (funcs ++ [func]) (sigs ++ [sig])).
    + by rewrite zip_with_app.
    + simpl. by rewrite lookup_alter_eq, Hf.
    + simpl. by rewrite lookup_alter_eq, Hs.
  - apply Exists_exists in Hex as (q & Hq & Hv).
    unfold plain_func in Hplain. rewrite Forall_forall in Hplain.
    specialize (Hplain q Hq). congruence.
Qed.

(** X11.  [overload] does not look for duplicates.  On a handle whose two
    lists are in step and where a function without variadic parameter is
    already a candidate, paired with the signature extracted from it,
    registering the function again makes ambiguous every call it survives,
    when no exception of the checker gets past the handler of the loop. *)
Theorem registering_twice_makes_ambiguous self func sig σ (i : nat)
    args kwargs :
  plain_func func → get_function_signature func = Return sig →
  allocated self σ → parallel self σ →
  candidates self σ !! i = Some (func, sig) →
  settled (candidates self (overload self func σ).2) args kwargs →
  survives args kwargs (func, sig) = true →
  outcome self args kwargs (overload self func σ).2
  = (Raise (AmbiguousMatchError args kwargs), world σ).
Proof.
  intros Hplain Hsig Ha Hpar Hi Hs Hsurv.
  destruct (overload_appends self func sig σ Hplain Hsig Ha Hpar)
    as (_ & Hc & Hw).
  rewrite (settled_outcome _ _ _ _ Hs), Hw.
  assert (Hlen : (1 < length (survivors (candidates self (overload self func σ).2)
                            args kwargs))%nat).
  { apply (survivors_two _ args kwargs i (length (candidates self σ))
             (func, sig) (func, sig)); try done.
    - by eapply lookup_lt_Some.
    - rewrite Hc. by apply lookup_app_l_Some.
    - rewrite Hc. rewrite lookup_app_r by lia.
      by rewrite Nat.sub_diag. }
  unfold decision. simpl.
  by destruct (survivors _ _ _) as [|f [|f' l]]; simpl in *; try lia.
Qed.

(** *** Binding and defaults *)

Lemma dict_lookup_None (pairs : list (string * Value)) k :
  k ∉ pairs.*1 → dict pairs !! k = None.
Proof. intros Hk. unfold dict. by rewrite dict_fold_other, lookup_empty. Qed.

Lemma new_arguments_bound (parameters : list Param)
    (arguments : gmap string Value) p v :
  p ∈ parameters → arguments !! name p = Some v →
  (name p, v) ∈ new_arguments parameters arguments.
Proof.
  intros Hin Hv. induction parameters as [|q ps IH]; simpl.
  - by apply not_elem_of_nil in Hin.
  - apply elem_of_cons in Hin as [<-|Hin].
    + rewrite Hv. by apply elem_of_cons; left.
    + specialize (IH Hin). repeat case_match; try done;
        by apply elem_of_cons; right.
Qed.

(** X9.  After a successful [bind] and [apply_defaults] on a function
    without variadic parameter, the bound arguments are keyed by exactly
    the parameter names; so the membership test of the checking loop
    succeeds for every parameter of the function's own signature. *)
Theorem every_parameter_is_bound func args kwargs bound :
  plain_func func → well_formed func →
  bind (func_parameters func) args kwargs = Return bound →
  (∀ k, is_Some (apply_defaults (func_parameters func) bound !! k)
        ↔ k ∈ name <$> func_parameters func)
  ∧ (∀ sig info, get_function_signature func = Return sig →
       info ∈ sig_parameters sig →
       is_Some (apply_defaults (func_parameters func) bound
                !! info_name info)).
Proof.
  intros Hplain [Hnd _] Hb.
  assert (Hnd' : NoDup (new_arguments (func_parameters func) bound).*1).
  { eapply sublist_NoDup; [exact Hnd|apply new_arguments_names]. }
  assert (Hall : ∀ k, is_Some (apply_defaults (func_parameters func) bound !! k)
                      ↔ k ∈ name <$> func_parameters func).
  { intros k. split.
    - intros Hsome.
      destruct (decide (k ∈ (new_arguments (func_parameters func) bound).*1))
        as [Hin|Hnin].
      + eapply elem_of_sublist; [exact Hin|apply new_arguments_names].
      + unfold apply_defaults in Hsome. rewrite dict_lookup_None in Hsome by done.
        by destruct Hsome.
    - intros Hk. apply list_elem_of_fmap in Hk as (p & -> & Hp).
      unfold apply_defaults.
      destruct (bound !! name p) as [v|] eqn:Hv.
      { exists v. apply dict_lookup; [done|]. by apply new_arguments_bound. }
      destruct (default p) as [d|] eqn:Hd.
      { exists (dict_get bound (name p) d). apply dict_lookup; [done|].
        by apply new_arguments_default. }
      exfalso. apply list_elem_of_lookup in Hp as [j Hj].
      destruct (bind_plain _ _ _ _ Hplain Hnd Hb) as (Hpos & Hrest & _).
      destruct (decide (j < length args)%nat) as [Hlt|Hge].
      + destruct (lookup_lt_is_Some_2 args j Hlt) as [v Hv'].
        rewrite (Hpos j p v Hj Hv') in Hv. done.
      + assert (Hk : kwargs !! name p = None).
        { rewrite <- (Hrest j p Hj) by lia. done. }
        assert (Hvar : variadic p = false).
        { unfold plain_func in Hplain. rewrite Forall_forall in Hplain.
          apply Hplain. by eapply list_elem_of_lookup_2. }
        destruct (binding_failure_raises (func_parameters func) args kwargs)
          as (e & He & _).
        { apply (missing_required _ _ _ j p); try done. lia. }
        congruence. }
  split; [exact Hall|].
  intros sig info Hsig Hin.
  destruct (get_function_signature_Return _ _ Hsig) as (h0 & hints & _ & _ & Hps).
  rewrite Hps in Hin. apply list_elem_of_fmap in Hin as (p & -> & Hp). simpl.
  apply Hall. apply list_elem_of_fmap. by exists p.
Qed.


Ltac kind_known q Hq :=
  rewrite ?(bool_decide_eq_false_2 (kind q = VAR_POSITIONAL)),
    ?(bool_decide_eq_false_2 (kind q = VAR_KEYWORD)),
    ?(bool_decide_eq_false_2 (kind q = KEYWORD_ONLY)),
    ?(bool_decide_eq_false_2 (kind q = POSITIONAL_ONLY))
    by (rewrite Hq; done).

Lemma bind_as_two_loops ps args kwargs :
  bind ps args kwargs
  = bind_positional ps args kwargs ∅ ≫= bind_rest kwargs.
Proof.
  unfold bind, bind_rest. run_unfold.
  by destruct (bind_positional ps args kwargs ∅) as [[a rest]|e].
Qed.

Lemma bind_positional_no_args ps kwargs acc :
  positional_or_keyword ps →
  bind_positional ps [] kwargs acc ≫= bind_rest kwargs
  = bind_rest kwargs (acc, ps).
Proof.
  intros Hps. destruct ps as [|q ps]; [done|].
  apply Forall_cons in Hps as [Hq _]. simpl. kind_known q Hq. simpl.
  case_bool_decide as Hk; [done|].
  case_bool_decide as Hd; [done|].
  unfold bind_rest. run_unfold. simpl. kind_known q Hq.
  destruct (kwargs !! name q) as [v|]; [exfalso; by apply Hk|].
  by rewrite (bool_decide_eq_false_2 _ Hd).
Qed.

Lemma bind_positional_cons p ps a args kwargs acc :
  kind p = POSITIONAL_OR_KEYWORD →
  bind_positional (p :: ps) (a :: args) kwargs acc
  = if bool_decide (is_Some (kwargs !! name p)) then Raise (multiple_values p)
    else bind_positional ps args kwargs (<[name p:=a]> acc).
Proof.
  intros Hq. simpl. kind_known p Hq. simpl. by case_bool_decide.
Qed.

Lemma bind_positional_nil_given p ps kwargs acc :
  kind p = POSITIONAL_OR_KEYWORD → is_Some (kwargs !! name p) →
  bind_positional (p :: ps) [] kwargs acc = Return (acc, p :: ps).
Proof.
  intros Hq Hk. simpl. kind_known p Hq. by rewrite bool_decide_eq_true_2.
Qed.

Lemma bind_rest_cons_given p ps kwargs acc a :
  kind p = POSITIONAL_OR_KEYWORD → kwargs !! name p = Some a →
  bind_rest kwargs (acc, p :: ps)
  = bind_rest (delete (name p) kwargs) (<[name p:=a]> acc, ps).
Proof.
  intros Hq Hk. unfold bind_rest. simpl. kind_known p Hq. by rewrite Hk.
Qed.

Lemma bind_last_positional ps args a kwargs acc p :
  positional_or_keyword ps → NoDup (name <$> ps) →
  ps !! length args = Some p → kwargs !! name p = None →
  bind_positional ps (args ++ [a]) kwargs acc ≫= bind_rest kwargs
  = bind_positional ps args (<[name p:=a]> kwargs) acc
    ≫= bind_rest (<[name p:=a]> kwargs).
Proof.
  revert ps acc. induction args as [|b args IH]; intros ps acc Hps Hnd Hp Hk.
  - destruct ps as [|q ps]; [done|]. injection Hp as ->.
    apply Forall_cons in Hps as [Hq Hps].
    change ([] ++ [a]) with [a]. rewrite (bind_positional_cons p) by done.
    rewrite (bool_decide_eq_false_2 (is_Some (kwargs !! name p)))
      by (rewrite Hk; by intros [? ?]).
    rewrite (bind_positional_no_args ps kwargs _ Hps).
    rewrite (bind_positional_nil_given p)
      by (try done; rewrite lookup_insert_eq; by eexists).
    change (bind_rest kwargs (<[name p:=a]> acc, ps)
            = bind_rest (<[name p:=a]> kwargs) (acc, p :: ps)).
    rewrite (bind_rest_cons_given p ps _ acc a Hq) by apply lookup_insert_eq.
    by rewrite delete_insert_id.
  - destruct ps as [|q ps]; [done|]. simpl in Hp.
    apply Forall_cons in Hps as [Hq Hps].
    apply NoDup_cons in Hnd as [Hqn Hnd].
    assert (Hne : name p ≠ name q).
    { intros Heq. apply Hqn. rewrite <- Heq. apply list_elem_of_fmap.
      exists p. split; [done|]. by eapply list_elem_of_lookup_2. }
    rewrite <- app_comm_cons. rewrite !(bind_positional_cons q) by done.
    rewrite (lookup_insert_ne kwargs) by done.
    case_bool_decide; [done|]. by apply IH.
Qed.

(** X14.  For a function all of whose parameters are positional-or-keyword,
    passing the last positional argument by keyword instead gives the same
    binding, or the same [TypeError], and so the same verdict on the
    candidate. *)
Theorem last_positional_as_keyword func sig args a kwargs p :
  positional_or_keyword (func_parameters func) → well_formed func →
  func_parameters func !! length args = Some p → kwargs !! name p = None →
  bind (func_parameters func) (args ++ [a]) kwargs
  = bind (func_parameters func) args (<[name p:=a]> kwargs)
  ∧ type_matched func sig (args ++ [a]) kwargs
    = type_matched func sig args (<[name p:=a]> kwargs).
Proof.
  intros Hps [Hnd _] Hp Hk.
  assert (Hb : bind (func_parameters func) (args ++ [a]) kwargs
               = bind (func_parameters func) args (<[name p:=a]> kwargs)).
  { rewrite !bind_as_two_loops. by apply bind_last_positional. }
  split; [exact Hb|]. unfold type_matched. by rewrite Hb.
Qed.

(** X15.  A call that gives a parameter both a positional and a keyword
    value does not bind: [bind] raises [TypeError] and the candidate is
    dropped without an exception. *)
Theorem doubly_supplied_parameter_eliminates func sig args kwargs
    (j : nat) p :
  plain_func func → well_formed func →
  func_parameters func !! j = Some p → (j < length args)%nat →
  is_Some (kwargs !! name p) →
  (∃ e, bind (func_parameters func) args kwargs = Raise e
        ∧ exn_type e = TypeError)
  ∧ survives args kwargs (func, sig) = false
  ∧ (∀ m σ, try_candidate m func sig args kwargs σ = (Return tt, σ)).
Proof.
  intros Hplain [Hnd _] Hj Hlt [v Hv].
  destruct (bind (func_parameters func) args kwargs) as [bound|e] eqn:Hb.
  { destruct (bind_plain _ _ _ _ Hplain Hnd Hb) as (_ & _ & Hkw).
    rewrite (Hkw j p Hj Hlt) in Hv. done. }
  assert (He := bind_TypeError _ _ _ _ Hb).
  assert (Hm : type_matched func sig args kwargs = Raise e).
  { unfold type_matched. run_unfold. by rewrite Hb. }
  split; [by exists e|]. split.
  - unfold survives. simpl. by rewrite Hm.
  - apply (raised_TypeError_is_silent func sig args kwargs e Hm).
    unfold isinstance. by rewrite He.
Qed.


(** *** Callables and their signatures *)

Lemma own_signatures_kept self σ σ' :
  func_lists σ' !! func_list self = func_lists σ !! func_list self →
  sig_lists σ' !! signatures self = sig_lists σ !! signatures self →
  own_signatures self σ → own_signatures self σ'.
Proof.
  unfold own_signatures, allocated, parallel, candidates.
  rewrite !lookup_total_alt. by intros -> ->.
Qed.

Lemma init_keeps_lists func σ :
  (∀ r, is_Some (func_lists σ !! r) →
     func_lists (__init__ func σ).2 !! r = func_lists σ !! r)
  ∧ (∀ r, is_Some (sig_lists σ !! r) →
       sig_lists (__init__ func σ).2 !! r = sig_lists σ !! r).
Proof.
  unfold __init__. run_unfold. unfold new_func_list, new_sig_list.
  assert (Hff : ∀ r (l : list (Func World)), is_Some (func_lists σ !! r) →
            <[fresh (dom (func_lists σ)):=l]> (func_lists σ) !! r
            = func_lists σ !! r).
  { intros r l Hr. apply lookup_insert_ne. intros <-.
    apply (is_fresh (dom (func_lists σ))). by apply elem_of_dom. }
  assert (Hfs : ∀ r (l : list signature_info), is_Some (sig_lists σ !! r) →
            <[fresh (dom (sig_lists σ)):=l]> (sig_lists σ) !! r
            = sig_lists σ !! r).
  { intros r l Hr. apply lookup_insert_ne. intros <-.
    apply (is_fresh (dom (sig_lists σ))). by apply elem_of_dom. }
  destruct (check_var_parameters (func_parameters func)) as [[]|e]; [|done].
  simpl. destruct (get_function_signature func) as [sig|e]; simpl.
  - split; [by intros r; apply Hff|by intros r; apply Hfs].
  - split; [by intros r; apply Hff|done].
Qed.

(** X19.  A handle made by [__init__] pairs every callable with the
    signature extracted from it, with the two lists in step; and it stays
    so through every further decoration, every call, every [overload] on
    another handle, and every [overload] on it of a function that has a
    variadic parameter or whose extraction succeeds. *)
Theorem registry_pairs_own_signatures :
  (∀ func σ self σ',
     __init__ func σ = (Return self, σ') → own_signatures self σ')
  ∧ (∀ self σ, own_signatures self σ →
       (∀ func, own_signatures self (__init__ func σ).2)
       ∧ (∀ self0 args kwargs,
            own_signatures self (__call__ self0 args kwargs σ).2)
       ∧ (∀ func,
            Exists (fun p => variadic p = true) (func_parameters func)
            ∨ (∃ sig, get_function_signature func = Return sig) →
            own_signatures self (overload self func σ).2)
       ∧ (∀ self0 func,
            func_list self0 ≠ func_list self →
            signatures self0 ≠ signatures self →
            own_signatures self (overload self0 func σ).2)).
Proof.
  split.
  - intros func σ self σ'. unfold __init__. run_unfold.
    unfold new_func_list, new_sig_list.
    destruct (check_var_parameters (func_parameters func)) as [[]|e]; [|done].
    simpl. destruct (get_function_signature func) as [sig|e] eqn:Hsig; [|done].
    simpl. intros [= <- <-].
    unfold own_signatures, allocated, parallel, candidates. simpl.
    rewrite !lookup_total_insert_eq, !lookup_insert_eq.
    split; [split; by eexists|]. split; [done|]. by repeat constructor.
  - intros self σ Hown. assert (Ha : allocated self σ) by apply Hown.
    destruct Ha as [Hf Hs]. split; [|split; [|split]].
    + intros func. destruct (init_keeps_lists func σ) as [Hkf Hks].
      apply (own_signatures_kept self σ); [by apply Hkf|by apply Hks|done].
    + intros self0 args kwargs.
      destruct (call_store self0 args kwargs σ) as [w ->].
      rewrite resolve_eq.
      apply (own_signatures_kept self σ); simpl; [|done|done].
      apply lookup_insert_ne. intros Heq.
      apply (is_fresh (dom (func_lists σ))). rewrite Heq.
      by apply elem_of_dom.
    + intros func Hok. unfold overload. run_unfold.
      unfold append_func, append_sig.
      destruct (check_var_parameters_cases (func_parameters func))
        as [[-> Hall]|[-> _]]; [|done].
      destruct Hok as [Hex|[sig Hsig]].
      { apply Exists_exists in Hex as (q & Hq & Hv).
        rewrite Forall_forall in Hall. specialize (Hall q Hq). congruence. }
      simpl. rewrite Hsig. simpl.
      destruct Hf as [funcs Hfl], Hs as [sigs Hsl].
      destruct Hown as (_ & Hpar & Hall').
      unfold parallel in Hpar. unfold candidates in Hall'.
      rewrite !lookup_total_alt, Hfl, Hsl in Hpar, Hall'. simpl in Hpar, Hall'.
      unfold own_signatures, allocated, parallel, candidates. simpl.
      rewrite !lookup_total_alt, !lookup_alter_eq, Hfl, Hsl. simpl.
      split; [split; by eexists|]. split.
      * rewrite !length_app. simpl. lia.
      * rewrite zip_with_app by done. apply Forall_app. split; [done|].
        by repeat constructor.
    + intros self0 func Hnf Hns. unfold overload. run_unfold.
      unfold append_func, append_sig.
      destruct (check_var_parameters (func_parameters func)) as [[]|e]; [|done].
      simpl. destruct (get_function_signature func) as [sig|e]; simpl.
      * apply (own_signatures_kept self σ); simpl; [| |done];
          by rewrite lookup_alter_ne.
      * apply (own_signatures_kept self σ); simpl; [|done|done].
        by rewrite lookup_alter_ne.
Qed.

End Further.

(** * The scenarios, continued *)

Lemma extraction_records_declaration_witness :
  well_formed q_untyped
  ∧ get_function_signature q_untyped = Return (signature_of q_untyped)
  ∧ sig_name (signature_of q_untyped) = "q"
  ∧ length (sig_parameters (signature_of q_untyped)) = 2
  ∧ sig_return_annotation (signature_of q_untyped) = Any.
Proof.
  assert (Hwf : well_formed q_untyped).
  { split.
    - apply NoDup_cons. split; [not_among|]. apply NoDup_singleton.
    - not_among. }
  assert (Hsig : get_function_signature q_untyped
                 = Return (signature_of q_untyped)).
  { vm_compute. reflexivity. }
  destruct (extraction_records_declaration q_untyped (signature_of q_untyped)
              Hwf Hsig) as (Hname & Hlen & _ & Hret).
  split; [exact Hwf|]. split; [exact Hsig|].
  split; [exact Hname|]. split; [exact Hlen|exact Hret].
Defined.

Lemma unresolved_name_fails_registration_witness :
  unresolved_name u_missing "Missing"
  ∧ (∃ e, get_function_signature u_missing = Raise e)
  ∧ (∃ e σ', __init__ u_missing empty_store = (Raise e, σ'))
  ∧ (∃ e σ', overload h_registered.1 u_missing h_registered.2 = (Raise e, σ')).
Proof.
  assert (Hu : unresolved_name u_missing "Missing").
  { split; [|reflexivity]. left. eexists. split; [apply list_elem_of_here|].
    reflexivity. }
  destruct (unresolved_name_fails_registration u_missing "Missing" Hu)
    as (Hsig & Hinit & Hover).
  split; [exact Hu|]. split; [exact Hsig|]. split; [apply Hinit|apply Hover].
Defined.

Lemma init_makes_fresh_handle_witness :
  plain_func h
  ∧ get_function_signature h = Return (signature_of h)
  ∧ ∃ self σ',
      __init__ h empty_store = (Return self, σ')
      ∧ func_lists empty_store !! func_list self = None
      ∧ sig_lists empty_store !! signatures self = None
      ∧ candidates self σ' = [(h, signature_of h)]
      ∧ allocated self σ' ∧ parallel self σ'
      ∧ (∀ self0, allocated self0 empty_store →
           candidates self0 σ' = candidates self0 empty_store)
      ∧ world σ' = world empty_store.
Proof.
  assert (Hplain : plain_func h) by repeat constructor.
  assert (Hsig : get_function_signature h = Return (signature_of h)).
  { vm_compute. reflexivity. }
  split; [exact Hplain|]. split; [exact Hsig|].
  exact (init_makes_fresh_handle h (signature_of h) empty_store Hplain Hsig).
Defined.

Lemma overload_appends_candidate_witness :
  allocated h_registered.1 h_registered.2
  ∧ parallel h_registered.1 h_registered.2
  ∧ ∃ σ',
      overload h_registered.1 f_int_str h_registered.2
      = (Return h_registered.1, σ')
      ∧ candidates h_registered.1 σ'
        = candidates h_registered.1 h_registered.2
          ++ [(f_int_str, signature_of f_int_str)]
      ∧ allocated h_registered.1 σ' ∧ parallel h_registered.1 σ'
      ∧ world σ' = world h_registered.2.
Proof.
  assert (Ha : allocated h_registered.1 h_registered.2).
  { split; vm_compute; by eexists. }
  assert (Hp : parallel h_registered.1 h_registered.2).
  { vm_compute. reflexivity. }
  split; [exact Ha|]. split; [exact Hp|].
  apply (overload_appends_candidate h_registered.1 f_int_str
           (signature_of f_int_str) h_registered.2);
    [repeat constructor|vm_compute; reflexivity|exact Ha|exact Hp].
Defined.


Lemma survives_iff_binds_and_passes_witness :
  survives (guard:=scalar_guard) [VInt 1; VStr "2"] ∅
    (f_int_str, signature_of f_int_str) = true
  ∧ ∃ bound,
      bind (func_parameters f_int_str) [VInt 1; VStr "2"] ∅ = Return bound
      ∧ ∀ info value,
          info ∈ sig_parameters (signature_of f_int_str) →
          is_Any (info_annotation info) = false →
          apply_defaults (func_parameters f_int_str) bound !! info_name info
          = Some value →
          scalar_guard value (info_annotation info) = Return tt.
Proof.
  assert (Hs : survives (guard:=scalar_guard) [VInt 1; VStr "2"] ∅
                 (f_int_str, signature_of f_int_str) = true).
  { vm_compute. reflexivity. }
  split; [exact Hs|].
  by apply (survives_iff_binds_and_passes (guard:=scalar_guard)).
Defined.



Lemma every_parameter_is_bound_witness :
  bind (func_parameters h) [] ∅ = Return ∅
  ∧ is_Some (apply_defaults (func_parameters h) ∅ !! "x")
  ∧ ¬ is_Some (apply_defaults (func_parameters h) ∅ !! "y").
Proof.
  assert (Hb : bind (func_parameters h) [] ∅ = Return ∅).
  { vm_compute. reflexivity. }
  assert (Hwf : well_formed h).
  { split; [apply NoDup_singleton|not_among]. }
  destruct (every_parameter_is_bound (World:=list string) h [] ∅ ∅
              ltac:(repeat constructor) Hwf Hb) as [Hall _].
  split; [exact Hb|]. split.
  - apply Hall. apply list_elem_of_here.
  - intros Hy. apply Hall in Hy. revert Hy. not_among.
Defined.


Lemma registering_twice_makes_ambiguous_witness :
  candidates h_registered.1 h_registered.2 !! 0 = Some (h, signature_of h)
  ∧ outcome (guard:=scalar_guard) h_registered.1 [] ∅ h_registered.2
    = (Return (VInt 7), ["h"])
  ∧ outcome (guard:=scalar_guard) h_registered.1 [] ∅
      (overload h_registered.1 h h_registered.2).2
    = (Raise (AmbiguousMatchError [] ∅), []).
Proof.
  assert (Hi : candidates h_registered.1 h_registered.2 !! 0
               = Some (h, signature_of h)).
  { vm_compute. reflexivity. }
  split; [exact Hi|]. split; [vm_compute; reflexivity|].
  apply (registering_twice_makes_ambiguous (guard:=scalar_guard)
           h_registered.1 h (signature_of h) h_registered.2 0 [] ∅).
  - repeat constructor.
  - vm_compute. reflexivity.
  - split; vm_compute; by eexists.
  - vm_compute. reflexivity.
  - exact Hi.
  - apply settled_check. vm_compute. reflexivity.
  - vm_compute. reflexivity.
Defined.

Lemma verdict_ignores_kind_and_default_witness :
  Forall2 same_constraint (sig_parameters (signature_of f_int_str))
    (sig_parameters (as_keyword_only (signature_of f_int_str)))
  ∧ type_matched (guard:=scalar_guard) f_int_str
      (as_keyword_only (signature_of f_int_str)) [VInt 1; VStr "2"] ∅
    = Return true.
Proof.
  assert (Hsame : Forall2 same_constraint
                    (sig_parameters (signature_of f_int_str))
                    (sig_parameters (as_keyword_only (signature_of f_int_str)))).
  { repeat constructor. }
  split; [exact Hsame|].
  rewrite <- (verdict_ignores_kind_and_default (guard:=scalar_guard) f_int_str
                (signature_of f_int_str) _ [VInt 1; VStr "2"] ∅ Hsame).
  vm_compute. reflexivity.
Defined.

Lemma mismatch_stops_the_check_witness :
  check_parameters (guard:=failing_guard ValueError)
    ([] ++ {| info_name := "a"; info_kind := POSITIONAL_OR_KEYWORD;
              info_default := None; info_required := true;
              info_annotation := TInt |}
        :: sig_parameters (signature_of w_weird))
    {["a" := VStr "s"; "x" := VInt 1]}
  = Return false.
Proof.
  eapply (mismatch_stops_the_check (guard:=failing_guard ValueError) []
            (sig_parameters (signature_of w_weird)) _ _ (VStr "s")).
  - reflexivity.
  - vm_compute. reflexivity.
  - reflexivity.
  - reflexivity.
  - reflexivity.
Defined.

Lemma last_positional_as_keyword_witness :
  positional_or_keyword (func_parameters f_int_str)
  ∧ bind (func_parameters f_int_str) ([VInt 1] ++ [VStr "2"]) ∅
    = bind (func_parameters f_int_str) [VInt 1] {["b" := VStr "2"]}
  ∧ type_matched (guard:=scalar_guard) f_int_str (signature_of f_int_str)
      [VInt 1] {["b" := VStr "2"]}
    = Return true.
Proof.
  assert (Hk : positional_or_keyword (func_parameters f_int_str)).
  { repeat constructor. }
  assert (Hwf : well_formed f_int_str).
  { split.
    - apply NoDup_cons. split; [not_among|]. apply NoDup_singleton.
    - not_among. }
  destruct (last_positional_as_keyword (guard:=scalar_guard) f_int_str
              (signature_of f_int_str) [VInt 1] (VStr "2") ∅ (typed "b" TStr)
              Hk Hwf eq_refl (lookup_empty _)) as [Hb Hm].
  split; [exact Hk|]. split; [exact Hb|].
  change ({["b" := VStr "2"]} : Kwargs)
    with (<[name (typed "b" TStr) := VStr "2"]> (∅ : Kwargs)).
  rewrite <- Hm. vm_compute. reflexivity.
Defined.

Lemma doubly_supplied_parameter_eliminates_witness :
  (∃ e, bind (func_parameters f_int_str) [VInt 1] {["a" := VInt 2]} = Raise e
        ∧ exn_type e = TypeError)
  ∧ survives (guard:=scalar_guard) [VInt 1] {["a" := VInt 2]}
      (f_int_str, signature_of f_int_str) = false.
Proof.
  assert (Hwf : well_formed f_int_str).
  { split.
    - apply NoDup_cons. split; [not_among|]. apply NoDup_singleton.
    - not_among. }
  destruct (doubly_supplied_parameter_eliminates (guard:=scalar_guard)
              f_int_str (signature_of f_int_str) [VInt 1] {["a" := VInt 2]}
              0 (typed "a" TInt) ltac:(repeat constructor) Hwf eq_refl
              ltac:(simpl; lia) ltac:(by eexists)) as (Hb & Hs & _).
  split; [exact Hb|exact Hs].
Defined.

Lemma escaping_exception_propagates_witness :
  candidates w_g_registered.1 w_g_registered.2
  = [] ++ (w_weird, signature_of w_weird) :: [(g_int, signature_of g_int)]
  ∧ survives (guard:=failing_guard ValueError) [VInt 1] ∅
      (g_int, signature_of g_int) = true
  ∧ outcome (guard:=failing_guard ValueError) w_g_registered.1 [VInt 1] ∅
      w_g_registered.2
    = (Raise (Exn ValueError (Text "isinstance() arg 2 must be a type")), []).
Proof.
  assert (Hc : candidates w_g_registered.1 w_g_registered.2
               = [] ++ (w_weird, signature_of w_weird)
                       :: [(g_int, signature_of g_int)]).
  { vm_compute. reflexivity. }
  split; [exact Hc|]. split; [vm_compute; reflexivity|].
  apply (escaping_exception_propagates (guard:=failing_guard ValueError)
           w_g_registered.1 [VInt 1] ∅ w_g_registered.2 []
           (w_weird, signature_of w_weird) [(g_int, signature_of g_int)]).
  - exact Hc.
  - constructor.
  - vm_compute. reflexivity.
Defined.

Lemma registry_pairs_own_signatures_witness :
  own_signatures h_registered.1 h_registered.2
  ∧ own_signatures h_registered.1
      (overload h_registered.1 f_int_str h_registered.2).2
  ∧ ¬ parallel h_registered.1
        (overload h_registered.1 u_missing h_registered.2).2.
Proof.
  destruct (registry_pairs_own_signatures (World:=list string)
              (guard:=scalar_guard)) as [Hinit Hkeep].
  assert (Hh : own_signatures h_registered.1 h_registered.2).
  { apply (Hinit h empty_store). reflexivity. }
  destruct (Hkeep _ _ Hh) as (_ & _ & Hover & _).
  split; [exact Hh|]. split.
  - apply Hover. right. exists (signature_of f_int_str).
    vm_compute. reflexivity.
  - vm_compute. discriminate.
Defined.

(** * Calls on a registry a failed [overload] has left *)

(** C6 (where the code breaks the claim).  After an [overload] that failed
    in extraction, [func_list] is one ahead of [signatures], and a later
    callable is paired with the signature of the one registered after it.
    Here [r(x)], whose [x] has no annotation, is paired with the signature
    of [g(x: int)]: the call [handle("s")] checks its [x] against [int]
    and drops it, and runs [u] instead; without the failed [overload] the
    same call runs [r]. *)
Theorem unannotated_parameter_checked_after_failed_overload :
  candidates r_misaligned.1 r_misaligned.2
  = [(f_int_str, signature_of f_int_str);
     (u_missing, signature_of r_untyped);
     (r_untyped, signature_of g_int)]
  ∧ annotation <$> func_parameters r_untyped = [None]
  ∧ survives (guard:=scalar_guard) [VStr "s"] ∅
      (r_untyped, signature_of r_untyped) = true
  ∧ survives (guard:=scalar_guard) [VStr "s"] ∅
      (r_untyped, signature_of g_int) = false
  ∧ outcome (guard:=scalar_guard) r_misaligned.1 [VStr "s"] ∅ r_misaligned.2
    = (Return VNone, ["u"])
  ∧ outcome (guard:=scalar_guard) r_aligned.1 [VStr "s"] ∅ r_aligned.2
    = (Return (VInt 4), ["r"]).
Proof. repeat split; vm_compute; reflexivity. Qed.

(** C7 (where the code breaks the claim).  On a registry left by an
    [overload] that failed in extraction, [h(x: int = 0)] is paired with
    the signature of [g_z(z: int)], none of whose parameters it has: the
    call [handle("s")] checks nothing of [h] and runs it on ["s"], though
    [h]'s own signature rejects ["s"]; without the failed [overload] the
    same call finds no match. *)
Theorem default_parameter_unchecked_after_failed_overload :
  candidates h_misaligned.1 h_misaligned.2
  = [(f_int_str, signature_of f_int_str);
     (u_missing, signature_of h);
     (h, signature_of g_z)]
  ∧ survives (guard:=scalar_guard) [VStr "s"] ∅ (h, signature_of h) = false
  ∧ survives (guard:=scalar_guard) [VStr "s"] ∅ (h, signature_of g_z) = true
  ∧ outcome (guard:=scalar_guard) h_misaligned.1 [VStr "s"] ∅ h_misaligned.2
    = (Return (VInt 7), ["h"])
  ∧ outcome (guard:=scalar_guard) h_aligned.1 [VStr "s"] ∅ h_aligned.2
    = (Raise (NoMatchError [VStr "s"] ∅), []).
Proof. repeat split; vm_compute; reflexivity. Qed.
